(** * Auto-analyze scheduling core and statistics-handle utilities

    A shallow embedding of the statistics auto-analyze scheduler
    (time window, job scoring and eligibility, indexed priority queue,
    refresher control loop) and of the helpers of
    [pkg/statistics/handle/util/util.go] ([CallWithSCtx], [WrapTxn],
    [finishTransaction], [IsSpecialGlobalIndex]).

    The packages [autoanalyze/priorityqueue] ([interval.go], [job.go],
    [queue.go]) and [autoanalyze/refresher] ([refresher.go]) are listed by
    their build files but their sources are not available; the definitions
    standing for them are marked "Modelled from the spec". Floating-point
    scores and ratios are modelled by integers ([Z]); instants and durations
    are integer seconds. *)

From Stdlib Require Import ZArith Lia.
From stdpp Require Import base list gmap strings.

Open Scope Z_scope.

(* ------------------------------------------------------------------ *)
(** ** Time window *)
(* ------------------------------------------------------------------ *)

Module TimeWindow.

(** A time of day, in seconds since midnight. *)
Definition SecondsPerDay : Z := 86400.

Definition hm (h m : Z) : Z := h * 3600 + m * 60.

(** The time of day of an instant (seconds since the epoch). *)
Definition timeOfDay (now : Z) : Z := now mod SecondsPerDay.

Record TimeWindow := mkWindow { start : Z; end_ : Z }.

(** Modelled from the spec: [TimeWindow.Contains] (§4.1; the window
    source is not available). *)
Definition Contains (w : TimeWindow) (now : Z) : bool :=
  if start w =? end_ w then true
  else if start w <? end_ w then (start w <=? now) && (now <? end_ w)
  else (start w <=? now) || (now <? end_ w).

End TimeWindow.

(* ------------------------------------------------------------------ *)
(** ** Job: signals, score and eligibility *)
(* ------------------------------------------------------------------ *)

Module Job.
Import TimeWindow.

Inductive Status :=
  | Pending | Queued | Running | Succeeded | Failed | Quarantined.

Definition Status_eqb (a b : Status) : bool :=
  match a, b with
  | Pending, Pending | Queued, Queued | Running, Running
  | Succeeded, Succeeded | Failed, Failed | Quarantined, Quarantined => true
  | _, _ => false
  end.

(** Staleness signals of one table or partition. [changeRatio] is the
    ratio of modified to total rows, scaled to an integer;
    [sinceLastRefresh] is the wall-clock time since the last successful
    refresh, in seconds. *)
Record Signals := mkSignals {
  rowCount : Z;
  modifiedRows : Z;
  changeRatio : Z;
  sinceLastRefresh : Z;
  analyzed : bool
}.

(** Coefficients of the priority function; they weight the signals of a
    weighted sum and are non-negative. *)
Record WeightConfig := mkWeights {
  wChangeRatio : N;
  wSizeTerm : N;
  wStalenessTerm : N
}.

Record Job := mkJob {
  schemaName : string;
  tableName : string;
  partitionName : string;
  signals : Signals;
  score : Z;
  status : Status;
  retryCount : nat;
  quarantineUntil : Z
}.

(** The key of a job: the concatenation of its identity. *)
Definition key (j : Job) : string :=
  schemaName j +:+ "." +:+ tableName j +:+ "." +:+ partitionName j.

(** Modelled from the spec: the size term, the logarithm of the row count
    (§4.2). *)
Definition sizeTerm (rows : Z) : Z := Z.log2 rows.

(** Score of an object whose statistics were never computed: above every
    score the weighted sum reaches for signals of realistic size. *)
Definition NeverAnalyzedScore : Z := 10 ^ 18.

(** Modelled from the spec: [ComputePriorityScore(signals, weights)]
    (§4.2), a weighted sum of the change ratio, the size term and the
    elapsed time since the last refresh; a never-analyzed object is ranked
    at maximum urgency. *)
Definition ComputePriorityScore (s : Signals) (w : WeightConfig) : Z :=
  if analyzed s then
    Z.of_N (wChangeRatio w) * changeRatio s
    + Z.of_N (wSizeTerm w) * sizeTerm (rowCount s)
    + Z.of_N (wStalenessTerm w) * sinceLastRefresh s
  else NeverAnalyzedScore.

(** Modelled from the spec: [Job.IsEligible(now, window,
    minReanalyzeInterval)] (§4.2). *)
Definition IsEligible (j : Job) (now : Z) (w : TimeWindow) (minReanalyzeInterval : Z)
  : bool :=
  if negb (Contains w (timeOfDay now)) then false
  else if sinceLastRefresh (signals j) <? minReanalyzeInterval then false
  else if Status_eqb (status j) Quarantined && (now <? quarantineUntil j) then false
  else true.

End Job.

(* ------------------------------------------------------------------ *)
(** ** [pkg/statistics/handle/util/util.go] *)
(* ------------------------------------------------------------------ *)

Module Util.

(** Errors of [github.com/pingcap/errors]: [errors.Trace] attaches a stack
    to an error that has none and leaves [nil] alone. *)
Inductive error := Err (msg : string) | WithStack (e : error).

Definition HasStack (e : error) : bool :=
  match e with WithStack _ => true | Err _ => false end.

Definition Trace (err : option error) : option error :=
  match err with
  | None => None
  | Some e => Some (if HasStack e then e else WithStack e)
  end.

Fixpoint Cause (e : error) : error :=
  match e with WithStack e' => Cause e' | Err m => Err m end.

(** *** Go calls with panics and a trace of observable effects *)

Inductive outcome (A : Type) := Ret (a : A) | Panic.
Arguments Ret {A} a.
Arguments Panic {A}.

(** The observable effects: calls on the session pool, SQL statements run
    through [ExecRows], the call of the user function [f], and the refresh
    of the session variables. *)
Inductive Event :=
  | EvGet
  | EvUpdateVars
  | EvExec (sql : string)
  | EvCallF
  | EvPut (se : nat)
  | EvDestroy (se : nat).

(** A computation: the effects it performed and how it ended. *)
Definition GoM (A : Type) : Type := (list Event * outcome A)%type.

Definition ret {A} (a : A) : GoM A := ([], Ret a).

Definition bind {A B} (m : GoM A) (k : A -> GoM B) : GoM B :=
  match m with
  | (t, Ret a) => let '(t', o) := k a in (t ++ t', o)
  | (t, Panic) => (t, Panic)
  end.

Definition emit (ev : Event) : GoM unit := ([ev], Ret tt).

Definition lift {A} (o : outcome A) : GoM A := ([], o).

Notation "x <- m ;; k" := (bind m (fun x => k))
  (at level 100, m at next level, right associativity).
Notation "m ;;; k" := (bind m (fun _ => k))
  (at level 100, right associativity).

(** [defer d] in a function with a named [error] result: [d] receives the
    named result when the body ends, and its value becomes the result.
    When the body panics, [d] still runs and the panic goes on. In the
    functions below every panic point comes before any assignment to the
    named result, which therefore still holds [nil] then. *)
Definition with_defer (body : GoM (option error))
    (d : option error -> GoM (option error)) : GoM (option error) :=
  match body with
  | (t, Ret r) => let '(t', o) := d r in (t ++ t', o)
  | (t, Panic) => let '(t', _) := d None in (t ++ t', Panic)
  end.

(** [defer util.Recover(..., quit=false)]: a panic is logged and stopped;
    the function returns its named result, [nil] at that point. *)
Definition recover_ (m : GoM (option error)) : GoM (option error) :=
  match m with
  | (t, Panic) => (t, Ret None)
  | _ => m
  end.

(** The collaborators of the session pool, the SQL executor and the
    function passed by the caller, given by what they return. *)
Record Env := mkEnv {
  poolGet : nat + error;
  updateVars : outcome (option error);
  callF : outcome (option error);
  execRows : string -> option error
}.

Section WithEnv.
Variable env : Env.

Definition ExecRows (sql : string) : GoM (option error) :=
  emit (EvExec sql) ;;; ret (execRows env sql).

Definition f (sctx : nat) : GoM (option error) :=
  emit EvCallF ;;; lift (callF env).

Definition UpdateSCtxVarsForStats (sctx : nat) : GoM (option error) :=
  emit EvUpdateVars ;;; lift (updateVars env).

(** [finishTransaction] *)
Definition finishTransaction (sctx : nat) (err : option error) : GoM (option error) :=
  match err with
  | None => err' <- ExecRows "COMMIT" ;; ret (Trace err')
  | Some _ => _ <- ExecRows "rollback" ;; ret (Trace err)
  end.

(** [WrapTxn] *)
Definition WrapTxn (sctx : nat) : GoM (option error) :=
  b <- ExecRows "BEGIN PESSIMISTIC" ;;
  match b with
  | Some e => ret (Some e)
  | None => with_defer (f sctx) (finishTransaction sctx)
  end.

Definition FlagWrapTxn : Z := 0.

Definition wrapTxnFlag (flags : list Z) : bool :=
  existsb (fun flag => flag =? FlagWrapTxn) flags.

(** [CallWithSCtx] *)
Definition CallWithSCtx (flags : list Z) : GoM (option error) :=
  recover_ (
    emit EvGet ;;;
    match poolGet env with
    | inr e => ret (Trace (Some e))
    | inl se =>
        with_defer
          (u <- UpdateSCtxVarsForStats se ;;
           match u with
           | Some e => ret (Trace (Some e))
           | None =>
               err <- (if wrapTxnFlag flags then WrapTxn se else f se) ;;
               ret (Trace err)
           end)
          (fun err =>
             (match err with
              | None => emit (EvPut se)
              | Some _ => emit (EvDestroy se)
              end) ;;; ret err)
    end).

End WithEnv.

(** Releases of the session handle [se] recorded in a trace. *)
Definition isPut (se : nat) (ev : Event) : bool :=
  match ev with EvPut s => Nat.eqb s se | _ => false end.

Definition isDestroy (se : nat) (ev : Event) : bool :=
  match ev with EvDestroy s => Nat.eqb s se | _ => false end.

Definition puts (se : nat) (t : list Event) : nat := length (List.filter (isPut se) t).
Definition destroys (se : nat) (t : list Event) : nat := length (List.filter (isDestroy se) t).

(** *** [IsSpecialGlobalIndex] *)

Record ColumnInfo := mkColumnInfo {
  colName : string;
  GeneratedExprString : string;
  GeneratedStored : bool
}.

Definition IsGenerated (c : ColumnInfo) : bool :=
  negb (String.eqb (GeneratedExprString c) "").

Definition IsVirtualGenerated (c : ColumnInfo) : bool :=
  IsGenerated c && negb (GeneratedStored c).

Record IndexColumn := mkIndexColumn {
  icName : string;
  Offset : Z;
  Length : Z
}.

Record IndexInfo := mkIndexInfo {
  idxName : string;
  idxColumns : list IndexColumn;
  Global : bool
}.

Record TableInfo := mkTableInfo { tblColumns : list ColumnInfo }.

Definition UnspecifiedLength : Z := -1.

(** [tblInfo.Columns[col.Offset]]: [None] is the index-out-of-range
    panic. *)
Definition columnAt (tbl : TableInfo) (off : Z) : option ColumnInfo :=
  if off <? 0 then None else tblColumns tbl !! Z.to_nat off.

(** The loop of [IsSpecialGlobalIndex] over the index columns; [None]
    when the lookup of a column panics. *)
Fixpoint specialColumnLoop (tbl : TableInfo) (cols : list IndexColumn) : option bool :=
  match cols with
  | [] => Some false
  | col :: rest =>
      match columnAt tbl (Offset col) with
      | None => None
      | Some colInfo =>
          let isPrefixCol := negb (Length col =? UnspecifiedLength) in
          if IsVirtualGenerated colInfo || isPrefixCol then Some true
          else specialColumnLoop tbl rest
      end
  end.

(** [IsSpecialGlobalIndex] *)
Definition IsSpecialGlobalIndex (idx : IndexInfo) (tbl : TableInfo) : option bool :=
  if negb (Global idx) then Some false
  else specialColumnLoop tbl (idxColumns idx).

(** The columns of an index name columns of its table. *)
Definition ValidOffsets (idx : IndexInfo) (tbl : TableInfo) : Prop :=
  Forall (fun col => 0 <= Offset col < Z.of_nat (length (tblColumns tbl)))
    (idxColumns idx).

(** An index column is a virtual generated column or a prefix column. *)
Definition SpecialColumn (tbl : TableInfo) (col : IndexColumn) : Prop :=
  exists ci, columnAt tbl (Offset col) = Some ci /\
    (IsVirtualGenerated ci = true \/ Length col <> UnspecifiedLength).

End Util.

(* ------------------------------------------------------------------ *)
(** ** Priority queue: an indexed max-heap *)
(* ------------------------------------------------------------------ *)

(** Modelled from the spec: the priority queue of [queue.go] (§3, §4.3,
    §9): an array-backed max-heap, a map from job key to heap position
    updated on every swap, and an insertion counter that breaks ties
    between equal scores in favour of the earlier-inserted entry. The
    sift loops are those of Go's [container/heap]. *)
Module PQ.
Import Job.

Record entry := mkEntry { job : Job; seq : nat }.

Definition ekey (e : entry) : string := key (job e).
Definition escore (e : entry) : Z := score (job e).

Record Queue := mkQueue {
  heap : list entry;
  index : gmap string nat;
  nextSeq : nat
}.

Definition empty : Queue := mkQueue [] ∅ 0.

(** [higher a b]: [a] is popped before [b]. *)
Definition higher (a b : entry) : bool :=
  (escore b <? escore a) || ((escore a =? escore b) && (seq a <? seq b)%nat).

(** [h.Less(i, j)] *)
Definition less (q : Queue) (i j : nat) : bool :=
  match heap q !! i, heap q !! j with
  | Some a, Some b => higher a b
  | _, _ => false
  end.

(** [h.Swap(i, j)]: exchanges two entries and their recorded positions. *)
Definition swap (q : Queue) (i j : nat) : Queue :=
  match heap q !! i, heap q !! j with
  | Some ei, Some ej =>
      mkQueue (<[i:=ej]> (<[j:=ei]> (heap q)))
              (<[ekey ei := j]> (<[ekey ej := i]> (index q)))
              (nextSeq q)
  | _, _ => q
  end.

(** [i := (j - 1) / 2 // parent] *)
Definition parent (j : nat) : nat := ((j - 1) / 2)%nat.
Arguments parent : simpl never.

(** [up(h, j)]; the fuel [j] bounds the number of iterations. *)
Fixpoint up (fuel : nat) (q : Queue) (j : nat) : Queue :=
  match fuel with
  | O => q
  | S fuel' =>
      if (j =? 0)%nat then q
      else
        let i := parent j in
        if less q j i then up fuel' (swap q i j) i else q
  end.

(** The loop of [down(h, i0, n)], returning the final position. *)
Fixpoint downLoop (fuel : nat) (q : Queue) (i n : nat) : Queue * nat :=
  match fuel with
  | O => (q, i)
  | S fuel' =>
      let j1 := (2 * i + 1)%nat in
      if (n <=? j1)%nat then (q, i)
      else
        let j := if ((j1 + 1 <? n)%nat && less q (j1 + 1) j1) then (j1 + 1)%nat else j1 in
        if less q j i then downLoop fuel' (swap q i j) j n else (q, i)
  end.

(** [down(h, i0, n)]: also tells whether the entry moved. *)
Definition down (q : Queue) (i0 n : nat) : Queue * bool :=
  let '(q', i) := downLoop n q i0 n in (q', (i0 <? i)%nat).

(** Drops the last entry of the heap and its index entry. *)
Definition popLast (q : Queue) : option entry * Queue :=
  match last (heap q) with
  | Some e =>
      (Some e, mkQueue (take (length (heap q) - 1) (heap q))
                       (delete (ekey e) (index q)) (nextSeq q))
  | None => (None, q)
  end.

Definition Len (q : Queue) : nat := length (heap q).

(** [Push(job)] *)
Definition Push (q : Queue) (j : Job) : Queue :=
  match index q !! key j with
  | Some i =>
      match heap q !! i with
      | Some old =>
          let q1 := mkQueue (<[i := mkEntry j (seq old)]> (heap q)) (index q) (nextSeq q) in
          if score (job old) <? score j then up i q1 i
          else fst (down q1 i (length (heap q)))
      | None => q
      end
  | None =>
      let n := length (heap q) in
      up n (mkQueue (heap q ++ [mkEntry j (nextSeq q)])
                    (<[key j := n]> (index q)) (S (nextSeq q))) n
  end.

(** [PopMax() -> (job, ok)] *)
Definition PopMax (q : Queue) : option Job * Queue :=
  match heap q with
  | [] => (None, q)
  | _ :: _ =>
      let n := (length (heap q) - 1)%nat in
      let q2 := fst (down (swap q 0 n) 0 n) in
      let '(e, q3) := popLast q2 in
      (job <$> e, q3)
  end.

(** [Peek() -> (job, ok)] *)
Definition Peek (q : Queue) : option Job := job <$> head (heap q).

(** [Remove(key) -> ok] *)
Definition Remove (q : Queue) (k : string) : bool * Queue :=
  match index q !! k with
  | None => (false, q)
  | Some i =>
      let n := (length (heap q) - 1)%nat in
      let q1 :=
        if (n =? i)%nat then q
        else
          let '(q', moved) := down (swap q i n) i n in
          if moved then q' else up i q' i in
      (true, snd (popLast q1))
  end.

(** Sequences of queue operations from the empty queue. *)
Inductive Op := OpPush (j : Job) | OpPopMax | OpRemove (k : string).

Definition applyOp (q : Queue) (op : Op) : Queue :=
  match op with
  | OpPush j => Push q j
  | OpPopMax => snd (PopMax q)
  | OpRemove k => snd (Remove q k)
  end.

Definition run (ops : list Op) : Queue := fold_left applyOp ops empty.

End PQ.

(* ------------------------------------------------------------------ *)
(** ** Refresher control loop *)
(* ------------------------------------------------------------------ *)

(** Modelled from the spec: the refresher of [refresher.go] (§4.4, §5):
    per tick the gate, the refresh of the queue from the candidates of
    the statistics layer, the dispatch loop under the concurrency limit,
    and the completion handling of finished executions. In-flight
    executions are the jobs of [running]; [known] keeps the last record
    of every key (status, retry count, quarantine expiry). *)
Module Refresher.
Import TimeWindow Job PQ.

Record Config := mkConfig {
  concurrencyLimit : nat;
  window : TimeWindow;
  minReanalyzeInterval : Z;
  maxRetries : nat;
  quarantineDuration : Z;
  weights : WeightConfig
}.

(** One element of [ListStaleCandidates()]. *)
Record Candidate := mkCandidate {
  cSchema : string;
  cTable : string;
  cPartition : string;
  cSignals : Signals
}.

Record Refresher := mkRefresher {
  queue : Queue;
  running : list Job;
  known : gmap string Job
}.

Definition init : Refresher := mkRefresher empty [] ∅.

Definition setStatus (s : Status) (j : Job) : Job :=
  mkJob (schemaName j) (tableName j) (partitionName j) (signals j) (score j)
        s (retryCount j) (quarantineUntil j).

Definition setOutcome (s : Status) (r : nat) (until : Z) (j : Job) : Job :=
  mkJob (schemaName j) (tableName j) (partitionName j) (signals j) (score j)
        s r until.

Definition isRunningKey (st : Refresher) (k : string) : bool :=
  existsb (fun j => String.eqb (key j) k) (running st).

(** Builds the job of a candidate: fresh signals and score, the status,
    retry count and quarantine of its last record. *)
Definition jobOf (cfg : Config) (st : Refresher) (c : Candidate) : Job :=
  let j0 := mkJob (cSchema c) (cTable c) (cPartition c) (cSignals c)
                  (ComputePriorityScore (cSignals c) (weights cfg)) Queued 0 0 in
  match known st !! key j0 with
  | Some prev =>
      let s := if Status_eqb (status prev) Quarantined then Quarantined else Queued in
      setOutcome s (retryCount prev) (quarantineUntil prev) j0
  | None => j0
  end.

(** Step 2: push every candidate not owned by an in-flight execution;
    remove the queued keys that are no longer candidates. *)
Definition refresh (cfg : Config) (cands : list Candidate) (st : Refresher) : Refresher :=
  let q1 := fold_left
              (fun q c =>
                 let j := jobOf cfg st c in
                 if isRunningKey st (key j) then q else Push q j)
              cands (queue st) in
  let candKeys := map (fun c => key (jobOf cfg st c)) cands in
  let dropped := List.filter (fun k => negb (existsb (String.eqb k) candKeys))
                        (map ekey (heap q1)) in
  let q2 := fold_left (fun q k => snd (Remove q k)) dropped q1 in
  mkRefresher q2 (running st) (known st).

(** Step 3: the dispatch loop; the fuel is the queue length, and every
    iteration pops one entry. *)
Fixpoint dispatchLoop (fuel : nat) (cfg : Config) (now : Z) (st : Refresher)
  : Refresher :=
  match fuel with
  | O => st
  | S fuel' =>
      if Contains (window cfg) (timeOfDay now)
         && (length (running st) <? concurrencyLimit cfg)%nat then
        match PopMax (queue st) with
        | (None, _) => st
        | (Some j, q') =>
            if IsEligible j now (window cfg) (minReanalyzeInterval cfg) then
              let j' := setStatus Running j in
              dispatchLoop fuel' cfg now
                (mkRefresher q' (j' :: running st) (<[key j := j']> (known st)))
            else
              dispatchLoop fuel' cfg now (mkRefresher q' (running st) (known st))
        end
      else st
  end.

Definition dispatch (cfg : Config) (now : Z) (st : Refresher) : Refresher :=
  dispatchLoop (Len (queue st)) cfg now st.

(** Step 1 to 3: one tick. *)
Definition tick (cfg : Config) (now : Z) (cands : list Candidate) (st : Refresher)
  : Refresher :=
  let st1 := refresh cfg cands st in
  if Contains (window cfg) (timeOfDay now) then dispatch cfg now st1 else st1.

(** Step 4 on failure: the retry count grows; below the maximum the job
    is pending again, otherwise it is quarantined until
    [now + quarantineDuration]. *)
Definition onFailure (cfg : Config) (now : Z) (j : Job) : Job :=
  let r := S (retryCount j) in
  if (r <? maxRetries cfg)%nat then setOutcome Pending r (quarantineUntil j) j
  else setOutcome Quarantined r (now + quarantineDuration cfg) j.

(** Step 4 on success. *)
Definition onSuccess (j : Job) : Job :=
  setOutcome Succeeded 0 (quarantineUntil j) j.

Fixpoint removeKey (k : string) (l : list Job) : list Job :=
  match l with
  | [] => []
  | j :: l' => if String.eqb (key j) k then l' else j :: removeKey k l'
  end.

(** Step 4: completion of the execution of key [k]; a job to retry is
    pushed back into the queue. *)
Definition complete (cfg : Config) (now : Z) (k : string) (success : bool)
    (st : Refresher) : Refresher :=
  match find (fun j => String.eqb (key j) k) (running st) with
  | None => st
  | Some j =>
      let rest := removeKey k (running st) in
      if success then
        mkRefresher (queue st) rest (<[k := onSuccess j]> (known st))
      else
        let j' := onFailure cfg now j in
        if Status_eqb (status j') Pending then
          mkRefresher (Push (queue st) j') rest (<[k := j']> (known st))
        else mkRefresher (queue st) rest (<[k := j']> (known st))
  end.

Inductive Event :=
  | Tick (now : Z) (cands : list Candidate)
  | Complete (now : Z) (k : string) (success : bool).

Definition step (cfg : Config) (st : Refresher) (ev : Event) : Refresher :=
  match ev with
  | Tick now cands => tick cfg now cands st
  | Complete now k success => complete cfg now k success st
  end.

Definition runEvents (cfg : Config) (evs : list Event) : Refresher :=
  fold_left (step cfg) evs init.

(** The jobs with status [Running], in the queue and in flight. *)
Definition runningCount (st : Refresher) : nat :=
  length (List.filter (fun j => Status_eqb (status j) Running) (running st))
  + length (List.filter (fun e => Status_eqb (status (job e)) Running) (heap (queue st))).

End Refresher.

(* ------------------------------------------------------------------ *)
(** ** Invariants of the priority queue *)
(* ------------------------------------------------------------------ *)

Module PQSpec.
Import PQ.

(** [dominates a b]: [b] is not popped before [a]. *)
Definition dominates (a b : entry) : Prop := higher b a = false.

(** Heap positions: [c] is a child of [p]. *)
Definition child (c p : nat) : Prop := c = (2 * p + 1)%nat \/ c = (2 * p + 2)%nat.

(** The heap order on the prefix of length [m]. *)
Definition HeapOK (m : nat) (h : list entry) : Prop :=
  forall p c ep ec, child c p -> (c < m)%nat ->
    h !! p = Some ep -> h !! c = Some ec -> dominates ep ec.

(** The heap order during [up] at position [j]. *)
Definition UpInv (m : nat) (h : list entry) (j : nat) : Prop :=
  (forall p c ep ec, child c p -> (c < m)%nat -> c <> j ->
     h !! p = Some ep -> h !! c = Some ec -> dominates ep ec) /\
  (forall g c eg ec, child j g -> child c j -> (c < m)%nat ->
     h !! g = Some eg -> h !! c = Some ec -> dominates eg ec).

(** The heap order during [down] at position [i]. *)
Definition DownInv (m : nat) (h : list entry) (i : nat) : Prop :=
  (forall p c ep ec, child c p -> (c < m)%nat -> p <> i ->
     h !! p = Some ep -> h !! c = Some ec -> dominates ep ec) /\
  (forall g c eg ec, child i g -> child c i -> (c < m)%nat ->
     h !! g = Some eg -> h !! c = Some ec -> dominates eg ec).

(** The heap order everywhere but at position [i]. *)
Definition HeapExcept (m : nat) (h : list entry) (i : nat) : Prop :=
  (forall p c ep ec, child c p -> (c < m)%nat -> p <> i -> c <> i ->
     h !! p = Some ep -> h !! c = Some ec -> dominates ep ec) /\
  (forall g c eg ec, child i g -> child c i -> (c < m)%nat ->
     h !! g = Some eg -> h !! c = Some ec -> dominates eg ec).

(** The key-to-position map agrees with the heap array. *)
Definition IndexOK (q : Queue) : Prop :=
  (forall i e, heap q !! i = Some e -> index q !! ekey e = Some i) /\
  (forall k i, index q !! k = Some i -> exists e, heap q !! i = Some e /\ ekey e = k).

(** Insertion numbers are distinct and below the counter. *)
Definition SeqOK (q : Queue) : Prop :=
  NoDup (map seq (heap q)) /\ (forall e, e ∈ heap q -> (seq e < nextSeq q)%nat).

Definition Inv (q : Queue) : Prop :=
  HeapOK (length (heap q)) (heap q) /\ IndexOK q /\ SeqOK q.

(** Queues related by a sequence of swaps. *)
Inductive SwapReach : Queue -> Queue -> Prop :=
  | sr_refl q : SwapReach q q
  | sr_step q i j q' : SwapReach (swap q i j) q' -> SwapReach q q'.

End PQSpec.

Module RefresherSpec.
Import Job PQ PQSpec Refresher.

(** No entry of the queue has status [Running]. *)
Definition QueueNotRunning (q : Queue) : Prop :=
  forall e, e ∈ heap q -> status (job e) <> Running.

(** The state invariant of the control loop. *)
Definition RInv (cfg : Config) (st : Refresher) : Prop :=
  Inv (queue st) /\ QueueNotRunning (queue st) /\
  (length (running st) <= concurrencyLimit cfg)%nat.

(** The record of a job after failed executions completed at the times [nows]. *)
Definition failures (cfg : Config) (nows : list Z) (j : Job) : Job :=
  fold_left (fun j t => onFailure cfg t j) nows j.

End RefresherSpec.

(** ** [UpdateSCtxVarsForStats] in detail *)

Module StatsVars.
Import Util.

(** The global system variables read by [UpdateSCtxVarsForStats], named
    after their [vardef] constants. *)
Inductive SysVar :=
  | TiDBEnableAsyncMergeGlobalStats
  | TiDBAnalyzePartitionConcurrency
  | TiDBAnalyzeVersion
  | TiDBEnableHistoricalStats
  | TiDBPartitionPruneMode
  | TiDBEnableAnalyzeSnapshot
  | TiDBAnalyzeSkipColumnTypes
  | TiDBSkipMissingPartitionStats
  | TiDBMergePartitionStatsConcurrency.

(** The fields of [sctx.GetSessionVars()] written by [UpdateSCtxVarsForStats];
    [AnalyzeSkipColumnTypes] (a [map[string]struct{}]) is the list of its keys. *)
Record SessionVars := mkSessionVars {
  EnableAsyncMergeGlobalStats : bool;
  AnalyzePartitionConcurrency : Z;
  AnalyzeVersion : Z;
  EnableHistoricalStats : bool;
  PartitionPruneMode : string;
  EnableAnalyzeSnapshot : bool;
  AnalyzeSkipColumnTypes : list string;
  SkipMissingPartitionStats : bool;
  AnalyzePartitionMergeConcurrency : Z
}.

Definition setEnableAsyncMergeGlobalStats (b : bool) (v : SessionVars) : SessionVars :=
  mkSessionVars b (AnalyzePartitionConcurrency v) (AnalyzeVersion v)
    (EnableHistoricalStats v) (PartitionPruneMode v) (EnableAnalyzeSnapshot v)
    (AnalyzeSkipColumnTypes v) (SkipMissingPartitionStats v)
    (AnalyzePartitionMergeConcurrency v).

Definition setAnalyzePartitionConcurrency (c : Z) (v : SessionVars) : SessionVars :=
  mkSessionVars (EnableAsyncMergeGlobalStats v) c (AnalyzeVersion v)
    (EnableHistoricalStats v) (PartitionPruneMode v) (EnableAnalyzeSnapshot v)
    (AnalyzeSkipColumnTypes v) (SkipMissingPartitionStats v)
    (AnalyzePartitionMergeConcurrency v).

Definition setAnalyzeVersion (c : Z) (v : SessionVars) : SessionVars :=
  mkSessionVars (EnableAsyncMergeGlobalStats v) (AnalyzePartitionConcurrency v) c
    (EnableHistoricalStats v) (PartitionPruneMode v) (EnableAnalyzeSnapshot v)
    (AnalyzeSkipColumnTypes v) (SkipMissingPartitionStats v)
    (AnalyzePartitionMergeConcurrency v).

Definition setEnableHistoricalStats (b : bool) (v : SessionVars) : SessionVars :=
  mkSessionVars (EnableAsyncMergeGlobalStats v) (AnalyzePartitionConcurrency v)
    (AnalyzeVersion v) b (PartitionPruneMode v) (EnableAnalyzeSnapshot v)
    (AnalyzeSkipColumnTypes v) (SkipMissingPartitionStats v)
    (AnalyzePartitionMergeConcurrency v).

(** [PartitionPruneMode.Store] *)
Definition setPartitionPruneMode (m : string) (v : SessionVars) : SessionVars :=
  mkSessionVars (EnableAsyncMergeGlobalStats v) (AnalyzePartitionConcurrency v)
    (AnalyzeVersion v) (EnableHistoricalStats v) m (EnableAnalyzeSnapshot v)
    (AnalyzeSkipColumnTypes v) (SkipMissingPartitionStats v)
    (AnalyzePartitionMergeConcurrency v).

Definition setEnableAnalyzeSnapshot (b : bool) (v : SessionVars) : SessionVars :=
  mkSessionVars (EnableAsyncMergeGlobalStats v) (AnalyzePartitionConcurrency v)
    (AnalyzeVersion v) (EnableHistoricalStats v) (PartitionPruneMode v) b
    (AnalyzeSkipColumnTypes v) (SkipMissingPartitionStats v)
    (AnalyzePartitionMergeConcurrency v).

Definition setAnalyzeSkipColumnTypes (ts : list string) (v : SessionVars) : SessionVars :=
  mkSessionVars (EnableAsyncMergeGlobalStats v) (AnalyzePartitionConcurrency v)
    (AnalyzeVersion v) (EnableHistoricalStats v) (PartitionPruneMode v)
    (EnableAnalyzeSnapshot v) ts (SkipMissingPartitionStats v)
    (AnalyzePartitionMergeConcurrency v).

Definition setSkipMissingPartitionStats (b : bool) (v : SessionVars) : SessionVars :=
  mkSessionVars (EnableAsyncMergeGlobalStats v) (AnalyzePartitionConcurrency v)
    (AnalyzeVersion v) (EnableHistoricalStats v) (PartitionPruneMode v)
    (EnableAnalyzeSnapshot v) (AnalyzeSkipColumnTypes v) b
    (AnalyzePartitionMergeConcurrency v).

Definition setAnalyzePartitionMergeConcurrency (c : Z) (v : SessionVars) : SessionVars :=
  mkSessionVars (EnableAsyncMergeGlobalStats v) (AnalyzePartitionConcurrency v)
    (AnalyzeVersion v) (EnableHistoricalStats v) (PartitionPruneMode v)
    (EnableAnalyzeSnapshot v) (AnalyzeSkipColumnTypes v) (SkipMissingPartitionStats v) c.

(** Code writing the session variables and returning early with an error:
    [inl] is a value, [inr] a returned error. *)
Definition VarM (A : Type) : Type := SessionVars -> SessionVars * (A + error).

Definition retV {A} (a : A) : VarM A := fun v => (v, inl a).

Definition bindV {A B} (m : VarM A) (k : A -> VarM B) : VarM B :=
  fun v => match m v with
           | (v', inl a) => k a v'
           | (v', inr e) => (v', inr e)
           end.

(** A Go call returning [(value, err)]: [if err != nil { return err }]. *)
Definition check {A} (r : A + error) : VarM A :=
  fun v => (v, r).

Definition modify (g : SessionVars -> SessionVars) : VarM unit :=
  fun v => (g v, inl tt).

Notation "'let*' x ':=' m 'in' k" := (bindV m (fun x => k))
  (at level 200, x name, m at level 100, k at level 200).

Section WithGlobals.
(** [GlobalVarsAccessor.GetGlobalSysVar], [variable.TiDBOptOn],
    [strconv.ParseInt(_, 10, 64)] and [variable.ParseAnalyzeSkipColumnTypes]. *)
Variable GetGlobalSysVar : SysVar -> string + error.
Variable TiDBOptOn : string -> bool.
Variable ParseInt : string -> Z + error.
Variable ParseAnalyzeSkipColumnTypes : string -> list string.

(** [UpdateSCtxVarsForStats] *)
Definition UpdateSCtxVarsForStats : VarM unit :=
  let* enableAsyncMergeGlobalStats := check (GetGlobalSysVar TiDBEnableAsyncMergeGlobalStats) in
  let* _ := modify (setEnableAsyncMergeGlobalStats (TiDBOptOn enableAsyncMergeGlobalStats)) in
  let* analyzePartitionConcurrency := check (GetGlobalSysVar TiDBAnalyzePartitionConcurrency) in
  let* c := check (ParseInt analyzePartitionConcurrency) in
  let* _ := modify (setAnalyzePartitionConcurrency c) in
  let* verInString := check (GetGlobalSysVar TiDBAnalyzeVersion) in
  let* ver := check (ParseInt verInString) in
  let* _ := modify (setAnalyzeVersion ver) in
  let* val := check (GetGlobalSysVar TiDBEnableHistoricalStats) in
  let* _ := modify (setEnableHistoricalStats (TiDBOptOn val)) in
  let* pruneMode := check (GetGlobalSysVar TiDBPartitionPruneMode) in
  let* _ := modify (setPartitionPruneMode pruneMode) in
  let* analyzeSnapshot := check (GetGlobalSysVar TiDBEnableAnalyzeSnapshot) in
  let* _ := modify (setEnableAnalyzeSnapshot (TiDBOptOn analyzeSnapshot)) in
  let* val := check (GetGlobalSysVar TiDBAnalyzeSkipColumnTypes) in
  let* _ := modify (setAnalyzeSkipColumnTypes (ParseAnalyzeSkipColumnTypes val)) in
  let* val := check (GetGlobalSysVar TiDBSkipMissingPartitionStats) in
  let* _ := modify (setSkipMissingPartitionStats (TiDBOptOn val)) in
  let* verInString := check (GetGlobalSysVar TiDBMergePartitionStatsConcurrency) in
  let* ver := check (ParseInt verInString) in
  let* _ := modify (setAnalyzePartitionMergeConcurrency ver) in
  retV tt.

End WithGlobals.

End StatsVars.

(** ** [DurationToTS] *)

Module TSO.

(** Go's conversions to [int64] and [uint64]: two's complement wrap-around. *)
Definition toInt64 (x : Z) : Z := (x + 2 ^ 63) mod 2 ^ 64 - 2 ^ 63.
Definition toUint64 (x : Z) : Z := x mod 2 ^ 64.

Definition physicalShiftBits : Z := 18.

(** [oracle.ComposeTS(physical, logical)] of client-go:
    [uint64((physical << physicalShiftBits) + logical)] on [int64]. *)
Definition ComposeTS (physical logical : Z) : Z :=
  toUint64 (toInt64 (toInt64 (Z.shiftl physical physicalShiftBits) + logical)).

(** [time.Millisecond] in nanoseconds. *)
Definition Millisecond : Z := 1000000.

(** [DurationToTS]: a [time.Duration] is an [int64] count of nanoseconds;
    Go's integer division truncates toward zero ([Z.quot]). *)
Definition DurationToTS (d : Z) : Z := ComposeTS (Z.quot d Millisecond) 0.

End TSO.

(* ================================================================== *)
(** * Properties *)
(* ================================================================== *)

Module TimeWindowFacts.
Import TimeWindow.

(** C2: [Contains] is always true for [start = end], is
    [start <= now < end] for [start < end] and [now >= start \/ now < end]
    for a window wrapping past midnight; the examples of §8 hold. *)
Theorem Contains_spec :
  (forall w now, start w = end_ w -> Contains w now = true) /\
  (forall w now, start w < end_ w ->
     (Contains w now = true <-> start w <= now < end_ w)) /\
  (forall w now, end_ w < start w ->
     (Contains w now = true <-> start w <= now \/ now < end_ w)) /\
  Contains (mkWindow (hm 22 0) (hm 6 0)) (hm 23 0) = true /\
  Contains (mkWindow (hm 22 0) (hm 6 0)) (hm 7 0) = false /\
  Contains (mkWindow (hm 1 0) (hm 5 0)) (hm 3 0) = true /\
  Contains (mkWindow (hm 1 0) (hm 5 0)) (hm 23 0) = false /\
  (forall t, Contains (mkWindow (hm 9 0) (hm 9 0)) t = true).
Proof.
  unfold Contains.
  split; [|split; [|split; [|split; [|split; [|split; [|split]]]]]]; try reflexivity.
  - intros w now H. rewrite H, Z.eqb_refl. reflexivity.
  - intros w now H.
    rewrite (proj2 (Z.eqb_neq _ _)) by lia. rewrite (proj2 (Z.ltb_lt _ _)) by lia.
    rewrite andb_true_iff, Z.leb_le, Z.ltb_lt. tauto.
  - intros w now H.
    rewrite (proj2 (Z.eqb_neq _ _)) by lia. rewrite (proj2 (Z.ltb_nlt _ _)) by lia.
    rewrite orb_true_iff, Z.leb_le, Z.ltb_lt. tauto.
Qed.

End TimeWindowFacts.

Module JobFacts.
Import TimeWindow Job.

(** C6: [IsEligible] is false outside the window, false when the time
    since the last refresh is below the minimum re-analyze interval,
    false for a quarantine that has not expired, and true otherwise; the
    score plays no part, so a job refreshed one second ago is not
    eligible under a one-hour interval whatever its score. *)
Theorem IsEligible_spec :
  (forall j now w minInt,
     IsEligible j now w minInt = true <->
     Contains w (timeOfDay now) = true /\
     minInt <= sinceLastRefresh (signals j) /\
     ~ (status j = Quarantined /\ now < quarantineUntil j)) /\
  (forall j now w minInt s',
     IsEligible (mkJob (schemaName j) (tableName j) (partitionName j) (signals j)
                   s' (status j) (retryCount j) (quarantineUntil j)) now w minInt
     = IsEligible j now w minInt) /\
  (forall j now w,
     sinceLastRefresh (signals j) = 1 -> IsEligible j now w 3600 = false).
Proof.
  unfold IsEligible. split; [|split].
  - intros j now w minInt.
    destruct (Contains w (timeOfDay now)) eqn:Hc; simpl.
    + destruct (sinceLastRefresh (signals j) <? minInt) eqn:Hm.
      * apply Z.ltb_lt in Hm. split; [discriminate | intros (_ & H & _); lia].
      * apply Z.ltb_ge in Hm.
        destruct (status j) eqn:Hs; simpl;
          try (split; [intros _; repeat split; auto; intros [H _]; discriminate | auto]).
        destruct (now <? quarantineUntil j) eqn:Hq; simpl.
        -- apply Z.ltb_lt in Hq. split; [discriminate | intros (_ & _ & H); tauto].
        -- apply Z.ltb_ge in Hq. split; [intros _; repeat split; auto; lia | auto].
    + split; [discriminate | intros (H & _); discriminate].
  - intros. reflexivity.
  - intros j now w H. rewrite H.
    destruct (Contains w (timeOfDay now)); reflexivity.
Qed.

(** C8: with the weights fixed, the score does not decrease when the
    change ratio, the row count (through the size term) or the time since
    the last refresh grows, the other signals fixed. *)
Theorem ComputePriorityScore_monotone :
  forall (s : Signals) (w : WeightConfig),
    (forall cr, changeRatio s <= cr ->
       ComputePriorityScore s w <=
       ComputePriorityScore (mkSignals (rowCount s) (modifiedRows s) cr
                               (sinceLastRefresh s) (analyzed s)) w) /\
    (forall rows, rowCount s <= rows ->
       ComputePriorityScore s w <=
       ComputePriorityScore (mkSignals rows (modifiedRows s) (changeRatio s)
                               (sinceLastRefresh s) (analyzed s)) w) /\
    (forall el, sinceLastRefresh s <= el ->
       ComputePriorityScore s w <=
       ComputePriorityScore (mkSignals (rowCount s) (modifiedRows s) (changeRatio s)
                               el (analyzed s)) w).
Proof.
  intros [rows md cr el an] [wc ws wt]. unfold ComputePriorityScore, sizeTerm; simpl.
  pose proof (N2Z.is_nonneg wc). pose proof (N2Z.is_nonneg ws).
  pose proof (N2Z.is_nonneg wt).
  destruct an; [|repeat split; intros; lia].
  repeat split; intros x Hx.
  - pose proof (Z.mul_le_mono_nonneg_l _ _ (Z.of_N wc) H Hx). lia.
  - pose proof (Z.log2_le_mono _ _ Hx).
    pose proof (Z.mul_le_mono_nonneg_l _ _ (Z.of_N ws) H0 H2). lia.
  - pose proof (Z.mul_le_mono_nonneg_l _ _ (Z.of_N wt) H1 Hx). lia.
Qed.

End JobFacts.

Module UtilFacts.
Import Util.

(** [WrapTxn] when [f] returns: [BEGIN PESSIMISTIC] first, then [f], then
    [COMMIT] when [f] returned [nil] and [rollback] otherwise; the result
    is the traced error of [f], or the traced error of the commit. *)
Lemma WrapTxn_returning (env : Env) (sctx : nat) (r : option error) :
  callF env = Ret r ->
  WrapTxn env sctx =
  match execRows env "BEGIN PESSIMISTIC" with
  | Some e => ([EvExec "BEGIN PESSIMISTIC"], Ret (Some e))
  | None =>
      match r with
      | None => ([EvExec "BEGIN PESSIMISTIC"; EvCallF; EvExec "COMMIT"],
                 Ret (Trace (execRows env "COMMIT")))
      | Some e => ([EvExec "BEGIN PESSIMISTIC"; EvCallF; EvExec "rollback"],
                   Ret (Trace (Some e)))
      end
  end.
Proof.
  intros Hf. unfold WrapTxn, ExecRows, f, with_defer, bind, emit, ret, lift.
  simpl. destruct (execRows env "BEGIN PESSIMISTIC"); [reflexivity|].
  rewrite Hf. destruct r; reflexivity.
Qed.

Lemma Trace_Cause (e : error) : exists e', Trace (Some e) = Some e' /\ Cause e' = Cause e.
Proof. destruct e; simpl; eauto. Qed.

(** C9 (failing input): when [BEGIN PESSIMISTIC] succeeds and [f]
    panics, the deferred [finishTransaction] sees the named result still
    [nil] and runs [COMMIT] before the panic goes on; through
    [CallWithSCtx] with [FlagWrapTxn] the panic is then recovered, the
    session put back and [nil] returned. *)
Theorem WrapTxn_commits_on_panic :
  let env := mkEnv (inl 0%nat) (Ret None) Panic (fun _ => None) in
  WrapTxn env 0%nat = ([EvExec "BEGIN PESSIMISTIC"; EvCallF; EvExec "COMMIT"], Panic) /\
  CallWithSCtx env [FlagWrapTxn] =
    ([EvGet; EvUpdateVars; EvExec "BEGIN PESSIMISTIC"; EvCallF; EvExec "COMMIT"; EvPut 0%nat],
     Ret None).
Proof. split; reflexivity. Qed.

(** C7: once the pool hands out a session [se], every run of
    [CallWithSCtx] (panics of the variable refresh or of [f] included)
    returns, and releases [se] exactly once: [Put] when the result is
    [nil], [Destroy] otherwise. *)
Theorem CallWithSCtx_releases_session (env : Env) (flags : list Z) (se : nat) :
  poolGet env = inl se ->
  exists t r,
    CallWithSCtx env flags = (t, Ret r) /\
    (puts se t + destroys se t = 1)%nat /\
    (r = None -> puts se t = 1%nat /\ destroys se t = 0%nat) /\
    (r <> None -> puts se t = 0%nat /\ destroys se t = 1%nat).
Proof.
  intros Hget.
  unfold CallWithSCtx, WrapTxn, finishTransaction, UpdateSCtxVarsForStats, ExecRows, f,
    recover_, with_defer, bind, emit, ret, lift, puts, destroys.
  rewrite Hget.
  destruct (updateVars env) as [[e|]|]; simpl;
    [| destruct (wrapTxnFlag flags); simpl;
       [destruct (execRows env "BEGIN PESSIMISTIC") as [eb|]; simpl;
        [| destruct (callF env) as [[ef|]|]; simpl;
           [| destruct (execRows env "COMMIT") as [ec|]; simpl |] ]
       | destruct (callF env) as [[ef|]|]; simpl ] |];
    rewrite ?Nat.eqb_refl; simpl;
    eexists _, _; (split; [reflexivity|]); simpl; rewrite ?Nat.eqb_refl; simpl;
    (refine (conj _ (conj _ _)); [reflexivity | intros H | intros H];
     try discriminate H; try (exfalso; apply H; reflexivity); split; reflexivity).
Qed.

Lemma CallWithSCtx_releases_session_witness :
  poolGet (mkEnv (inl 7%nat) (Ret None) (Ret (Some (Err "boom"))) (fun _ => None)) = inl 7%nat /\
  exists t r,
    CallWithSCtx (mkEnv (inl 7%nat) (Ret None) (Ret (Some (Err "boom"))) (fun _ => None)) [] =
      (t, Ret r) /\
    (puts 7 t + destroys 7 t = 1)%nat /\
    (r = None -> puts 7 t = 1%nat /\ destroys 7 t = 0%nat) /\
    (r <> None -> puts 7 t = 0%nat /\ destroys 7 t = 1%nat).
Proof.
  split; [reflexivity|].
  apply (CallWithSCtx_releases_session _ _ 7%nat). reflexivity.
Defined.

Lemma specialColumnLoop_valid (tbl : TableInfo) (cols : list IndexColumn) :
  Forall (fun col => 0 <= Offset col < Z.of_nat (length (tblColumns tbl))) cols ->
  exists b, specialColumnLoop tbl cols = Some b /\
            (b = true <-> Exists (SpecialColumn tbl) cols).
Proof.
  induction cols as [|col cols IH]; intros Hv; simpl.
  - exists false. split; [reflexivity|]. split; [discriminate | intros H; inversion H].
  - apply Forall_cons in Hv as [[H0 Hlt] Hv].
    destruct (columnAt tbl (Offset col)) as [ci|] eqn:Hci.
    2:{ exfalso. unfold columnAt in Hci.
        rewrite (proj2 (Z.ltb_ge _ _)) in Hci by lia.
        apply lookup_ge_None in Hci. lia. }
    destruct (IsVirtualGenerated ci || negb (Length col =? UnspecifiedLength)) eqn:Hs.
    + exists true. split; [reflexivity|]. split; [intros _|reflexivity].
      apply Exists_cons_hd. exists ci. split; [assumption|].
      apply orb_true_iff in Hs as [Hs|Hs]; [left; assumption|right].
      apply negb_true_iff, Z.eqb_neq in Hs. assumption.
    + destruct (IH Hv) as (b & Hb & Hiff). exists b. split; [assumption|].
      rewrite Hiff. split; [intros H; apply Exists_cons_tl; assumption|].
      intros H. apply Exists_cons in H as [(ci' & Hci' & Hsp)|H]; [|assumption].
      rewrite Hci in Hci'. injection Hci' as <-.
      apply orb_false_iff in Hs as [Hv1 Hp].
      apply negb_false_iff, Z.eqb_eq in Hp.
      destruct Hsp; congruence.
Qed.

(** C10: a non-global index is never special; when every column of the
    index names a column of the table, [IsSpecialGlobalIndex] returns
    true exactly for a global index with a virtual generated column or a
    prefix column, and false otherwise. *)
Theorem IsSpecialGlobalIndex_spec (idx : IndexInfo) (tbl : TableInfo) :
  (Global idx = false -> IsSpecialGlobalIndex idx tbl = Some false) /\
  (ValidOffsets idx tbl ->
     (IsSpecialGlobalIndex idx tbl = Some true <->
        Global idx = true /\ Exists (SpecialColumn tbl) (idxColumns idx)) /\
     (IsSpecialGlobalIndex idx tbl = Some false <->
        ~ (Global idx = true /\ Exists (SpecialColumn tbl) (idxColumns idx)))).
Proof.
  unfold IsSpecialGlobalIndex. split.
  - intros H. rewrite H. reflexivity.
  - intros Hv. destruct (Global idx) eqn:Hg; simpl.
    + destruct (specialColumnLoop_valid tbl (idxColumns idx) Hv) as (b & Hb & Hiff).
      rewrite Hb. destruct b.
      * split; [split; [intros _; split; [reflexivity|apply Hiff; reflexivity]|reflexivity]|].
        split; [discriminate|]. intros H. exfalso. apply H. split; [reflexivity|].
        apply Hiff. reflexivity.
      * split; [split; [discriminate|]|split; [|reflexivity]].
        -- intros [_ H]. apply Hiff in H. discriminate.
        -- intros _ [_ H]. apply Hiff in H. discriminate.
    + split; [split; [discriminate | intros [H _]; discriminate]|].
      split; [intros _ [H _]; discriminate | reflexivity].
Qed.

Lemma IsSpecialGlobalIndex_spec_witness :
  let tbl := mkTableInfo [mkColumnInfo "a" "" false; mkColumnInfo "b" "a + 1" false] in
  let idx := mkIndexInfo "i" [mkIndexColumn "a" 0 UnspecifiedLength;
                              mkIndexColumn "b" 1 UnspecifiedLength] true in
  ValidOffsets idx tbl /\ IsSpecialGlobalIndex idx tbl = Some true /\
  (Global idx = true /\ Exists (SpecialColumn tbl) (idxColumns idx)).
Proof.
  intros tbl idx.
  assert (Hv : ValidOffsets idx tbl).
  { unfold ValidOffsets. simpl. repeat constructor; simpl; lia. }
  split; [exact Hv|]. split; [reflexivity|].
  apply (proj1 (proj1 (proj2 (IsSpecialGlobalIndex_spec idx tbl) Hv))). reflexivity.
Defined.

End UtilFacts.

Module PQFacts.
Import Job PQ PQSpec.

(** *** Heap positions and the order of entries *)

Lemma child_parent (j : nat) : (0 < j)%nat -> child j (parent j).
Proof.
  intros Hj. unfold child, parent.
  pose proof (Nat.div_mod (j - 1) 2 ltac:(lia)).
  pose proof (Nat.mod_upper_bound (j - 1) 2 ltac:(lia)). lia.
Qed.

Lemma child_unique (c p p' : nat) : child c p -> child c p' -> p = p'.
Proof. unfold child. lia. Qed.

Lemma child_lt (c p : nat) : child c p -> (p < c)%nat.
Proof. unfold child. lia. Qed.

Lemma higher_true (a b : entry) :
  higher a b = true <->
  escore b < escore a \/ (escore a = escore b /\ (seq a < seq b)%nat).
Proof.
  unfold higher. rewrite orb_true_iff, andb_true_iff, Z.ltb_lt, Z.eqb_eq, Nat.ltb_lt.
  tauto.
Qed.

Lemma dominates_iff (a b : entry) :
  dominates a b <->
  escore b < escore a \/ (escore a = escore b /\ (seq a <= seq b)%nat).
Proof.
  unfold dominates. rewrite <- not_true_iff_false, higher_true. lia.
Qed.

Lemma dominates_refl (a : entry) : dominates a a.
Proof. apply dominates_iff. lia. Qed.

Lemma dominates_trans (a b c : entry) : dominates a b -> dominates b c -> dominates a c.
Proof. rewrite !dominates_iff. lia. Qed.

Lemma higher_dominates (a b : entry) : higher a b = true -> dominates a b.
Proof. rewrite higher_true, dominates_iff. lia. Qed.

Create HintDb heap.
#[local] Hint Resolve dominates_refl higher_dominates : heap.

(** *** Swaps *)

Lemma insert_delete_perm {A} (l : list A) (i : nat) (y : A) :
  (i < length l)%nat -> <[i:=y]> l ≡ₚ y :: delete i l.
Proof.
  revert i. induction l as [|a l IH]; intros i Hi; simpl in *; [lia|].
  destruct i as [|i]; simpl; [reflexivity|].
  rewrite (IH i ltac:(lia)). apply Permutation_swap.
Qed.

Lemma insert2_perm {A} (l : list A) (i j : nat) (x y : A) :
  l !! i = Some x -> l !! j = Some y -> <[i:=y]> (<[j:=x]> l) ≡ₚ l.
Proof.
  revert i j. induction l as [|a l IH]; intros i j Hi Hj; [discriminate|].
  destruct i as [|i], j as [|j]; simpl in *.
  - injection Hi as <-. injection Hj as <-. reflexivity.
  - injection Hi as <-.
    rewrite (insert_delete_perm l j a) by (apply lookup_lt_Some in Hj; lia).
    rewrite Permutation_swap. constructor. symmetry. by apply delete_Permutation.
  - injection Hj as <-.
    rewrite (insert_delete_perm l i a) by (apply lookup_lt_Some in Hi; lia).
    rewrite Permutation_swap. constructor. symmetry. by apply delete_Permutation.
  - constructor. by apply IH.
Qed.

Lemma swap_some (q : Queue) (i j : nat) (ei ej : entry) :
  heap q !! i = Some ei -> heap q !! j = Some ej ->
  swap q i j = mkQueue (<[i:=ej]> (<[j:=ei]> (heap q)))
                       (<[ekey ei := j]> (<[ekey ej := i]> (index q))) (nextSeq q).
Proof. intros Hi Hj. unfold swap. by rewrite Hi, Hj. Qed.

Lemma lookup_swap (q : Queue) (i j k : nat) (ei ej : entry) :
  heap q !! i = Some ei -> heap q !! j = Some ej ->
  heap (swap q i j) !! k =
  if decide (k = i) then Some ej else if decide (k = j) then Some ei else heap q !! k.
Proof.
  intros Hi Hj. rewrite (swap_some q i j ei ej Hi Hj). simpl.
  pose proof (lookup_lt_Some _ _ _ Hi). pose proof (lookup_lt_Some _ _ _ Hj).
  destruct (decide (k = i)) as [->|Hki].
  - apply list_lookup_insert_eq. rewrite length_insert. lia.
  - rewrite list_lookup_insert_ne by congruence.
    destruct (decide (k = j)) as [->|Hkj].
    + by apply list_lookup_insert_eq.
    + by apply list_lookup_insert_ne.
Qed.

Lemma swap_cases (q : Queue) (i j : nat) :
  swap q i j = q \/
  exists ei ej, heap q !! i = Some ei /\ heap q !! j = Some ej /\
    swap q i j = mkQueue (<[i:=ej]> (<[j:=ei]> (heap q)))
                         (<[ekey ei := j]> (<[ekey ej := i]> (index q))) (nextSeq q).
Proof.
  unfold swap. destruct (heap q !! i) as [ei|] eqn:Hi; [|by left].
  destruct (heap q !! j) as [ej|] eqn:Hj; [|by left].
  right. eauto.
Qed.

Lemma length_swap (q : Queue) (i j : nat) :
  length (heap (swap q i j)) = length (heap q).
Proof.
  destruct (swap_cases q i j) as [-> | (ei & ej & _ & _ & ->)]; [done|].
  simpl. by rewrite !length_insert.
Qed.

Lemma nextSeq_swap (q : Queue) (i j : nat) : nextSeq (swap q i j) = nextSeq q.
Proof. by destruct (swap_cases q i j) as [-> | (ei & ej & _ & _ & ->)]. Qed.

Lemma perm_swap (q : Queue) (i j : nat) : heap (swap q i j) ≡ₚ heap q.
Proof.
  destruct (swap_cases q i j) as [-> | (ei & ej & Hi & Hj & ->)]; [done|].
  simpl. by apply insert2_perm.
Qed.

Lemma IndexOK_unique (q : Queue) (i j : nat) (a b : entry) :
  IndexOK q -> heap q !! i = Some a -> heap q !! j = Some b -> ekey a = ekey b -> i = j.
Proof.
  intros [H1 _] Ha Hb Hk. pose proof (H1 _ _ Ha) as Ea. pose proof (H1 _ _ Hb) as Eb.
  rewrite Hk in Ea. congruence.
Qed.

Lemma IndexOK_swap (q : Queue) (i j : nat) : IndexOK q -> IndexOK (swap q i j).
Proof.
  intros Hok. destruct (swap_cases q i j) as [-> | (ei & ej & Hi & Hj & Hs)]; [done|].
  pose proof Hok as [H1 H2].
  split.
  - intros k e Hk. rewrite (lookup_swap q i j k ei ej Hi Hj) in Hk.
    rewrite Hs. simpl.
    destruct (decide (k = i)) as [->|Hki].
    + injection Hk as <-.
      destruct (decide (ekey ej = ekey ei)) as [Heq|Hne].
      * pose proof (IndexOK_unique q i j ei ej Hok Hi Hj (eq_sym Heq)) as ->.
        rewrite Heq. by rewrite lookup_insert_eq.
      * rewrite lookup_insert_ne by congruence. by rewrite lookup_insert_eq.
    + destruct (decide (k = j)) as [->|Hkj].
      * injection Hk as <-. by rewrite lookup_insert_eq.
      * rewrite lookup_insert_ne
          by (intros Heq; apply Hki; exact (IndexOK_unique q k i e ei Hok Hk Hi (eq_sym Heq))).
        rewrite lookup_insert_ne
          by (intros Heq; apply Hkj; exact (IndexOK_unique q k j e ej Hok Hk Hj (eq_sym Heq))).
        by apply H1.
  - rewrite Hs. simpl. intros k p Hk.
    assert (Hl : forall n e, heap q !! n = Some e ->
              <[i:=ej]> (<[j:=ei]> (heap q)) !! n =
              if decide (n = i) then Some ej else if decide (n = j) then Some ei else Some e).
    { intros n e Hn. pose proof (lookup_swap q i j n ei ej Hi Hj) as L.
      rewrite Hs in L. simpl in L. rewrite L, Hn. reflexivity. }
    destruct (decide (k = ekey ei)) as [->|Hk1].
    + rewrite lookup_insert_eq in Hk. injection Hk as <-.
      rewrite (Hl j ej Hj).
      destruct (decide (j = i)) as [->|]; [|rewrite decide_True by done; eauto].
      rewrite Hi in Hj. injection Hj as ->. eauto.
    + rewrite lookup_insert_ne in Hk by congruence.
      destruct (decide (k = ekey ej)) as [->|Hk2].
      * rewrite lookup_insert_eq in Hk. injection Hk as <-.
        rewrite (Hl i ei Hi), decide_True by done. eauto.
      * rewrite lookup_insert_ne in Hk by congruence.
        destruct (H2 _ _ Hk) as (e & He & <-).
        rewrite (Hl p e He).
        destruct (decide (p = i)) as [->|]; [rewrite Hi in He; congruence|].
        destruct (decide (p = j)) as [->|]; [rewrite Hj in He; congruence|].
        eauto.
Qed.

(** *** Sequences of swaps *)

Lemma SwapReach_trans (q1 q2 q3 : Queue) :
  SwapReach q1 q2 -> SwapReach q2 q3 -> SwapReach q1 q3.
Proof. induction 1; eauto using SwapReach. Qed.

Lemma SwapReach_swap (q : Queue) (i j : nat) : SwapReach q (swap q i j).
Proof. eapply sr_step. constructor. Qed.

Lemma SwapReach_props (q q' : Queue) :
  SwapReach q q' ->
  heap q' ≡ₚ heap q /\ nextSeq q' = nextSeq q /\ (IndexOK q -> IndexOK q').
Proof.
  induction 1 as [q|q i j q' _ (Hp & Hn & Hi)]; [done|].
  split; [|split].
  - rewrite Hp. apply perm_swap.
  - rewrite Hn. apply nextSeq_swap.
  - intros H. apply Hi. by apply IndexOK_swap.
Qed.

Lemma SwapReach_length (q q' : Queue) :
  SwapReach q q' -> length (heap q') = length (heap q).
Proof. intros H. apply Permutation_length. apply (SwapReach_props _ _ H). Qed.

Lemma SwapReach_SeqOK (q q' : Queue) : SwapReach q q' -> SeqOK q -> SeqOK q'.
Proof.
  intros H [Hnd Hlt]. destruct (SwapReach_props _ _ H) as (Hp & Hn & _).
  split.
  - by rewrite Hp.
  - intros e He. rewrite Hn. apply Hlt. by rewrite <- Hp.
Qed.

(** *** [up] *)

Lemma less_some (q : Queue) (i j : nat) (a b : entry) :
  heap q !! i = Some a -> heap q !! j = Some b -> less q i j = higher a b.
Proof. intros Ha Hb. unfold less. by rewrite Ha, Hb. Qed.

Lemma up_SwapReach (fuel : nat) (q : Queue) (j : nat) : SwapReach q (up fuel q j).
Proof.
  revert q j. induction fuel as [|fuel IH]; intros q j; simpl; [constructor|].
  case_match; [constructor|].
  case_match; [apply (sr_step _ _ _ _ (IH _ _)) | constructor].
Qed.

(** [up] from [j] only moves entries at positions up to [j]. *)
Lemma up_above (fuel : nat) (q : Queue) (j k : nat) :
  (j < k)%nat -> heap (up fuel q j) !! k = heap q !! k.
Proof.
  revert q j. induction fuel as [|fuel IH]; intros q j Hk; simpl; [done|].
  destruct (j =? 0)%nat eqn:Hj0; [done|]. apply Nat.eqb_neq in Hj0.
  destruct (less q j (parent j)); [|done].
  pose proof (child_lt _ _ (child_parent j ltac:(lia))).
  rewrite IH by lia.
  destruct (swap_cases q (parent j) j) as [-> | (ei & ej & Hi & Hj & _)]; [done|].
  rewrite (lookup_swap _ _ _ _ _ _ Hi Hj).
  rewrite !decide_False by lia. done.
Qed.

(** Settles the position tests of a lookup after a swap. *)
Ltac dec_in H :=
  repeat (first [rewrite decide_True in H by lia | rewrite decide_False in H by lia]).

Ltac dec_in_goal :=
  repeat (first [rewrite decide_True by lia | rewrite decide_False by lia]); try done.

Lemma lookup_swap_list (h : list entry) (i j k : nat) (ei ej : entry) :
  h !! i = Some ei -> h !! j = Some ej ->
  <[i:=ej]> (<[j:=ei]> h) !! k =
  if decide (k = i) then Some ej else if decide (k = j) then Some ei else h !! k.
Proof.
  intros Hi Hj. pose proof (lookup_lt_Some _ _ _ Hi). pose proof (lookup_lt_Some _ _ _ Hj).
  destruct (decide (k = i)) as [->|].
  - apply list_lookup_insert_eq. rewrite length_insert. lia.
  - rewrite list_lookup_insert_ne by congruence.
    destruct (decide (k = j)) as [->|]; [by apply list_lookup_insert_eq|].
    by apply list_lookup_insert_ne.
Qed.

Lemma up_step_inv (m : nat) (h : list entry) (i j : nat) (ei ej : entry) :
  child j i -> h !! i = Some ei -> h !! j = Some ej -> higher ej ei = true ->
  UpInv m h j -> UpInv m (<[i:=ej]> (<[j:=ei]> h)) i.
Proof.
  intros Hc Hi Hj Hhi [Ha Hb].
  pose proof (child_lt _ _ Hc) as Hij.
  pose proof (lookup_swap_list h i j) as L.
  split.
  - intros p c ep ec Hcp Hcm Hci Hp Hcl.
    rewrite (L p ei ej Hi Hj) in Hp. rewrite (L c ei ej Hi Hj) in Hcl.
    pose proof (child_lt _ _ Hcp).
    destruct (decide (c = j)) as [->|Hcj].
    + pose proof (child_unique _ _ _ Hcp Hc) as ->.
      dec_in Hcl. dec_in Hp. injection Hcl as <-. injection Hp as <-. auto with heap.
    + dec_in Hcl.
      destruct (decide (p = i)) as [->|Hpi].
      * dec_in Hp. injection Hp as <-. apply dominates_trans with ei; [auto with heap|].
        eapply Ha; eauto.
      * destruct (decide (p = j)) as [->|Hpj].
        -- dec_in Hp. injection Hp as <-. eapply Hb; eauto.
        -- dec_in Hp. eapply Ha; eauto.
  - intros g c eg ec Hig Hci Hcm Hg Hcl.
    rewrite (L g ei ej Hi Hj) in Hg. rewrite (L c ei ej Hi Hj) in Hcl.
    pose proof (child_lt _ _ Hig). pose proof (child_lt _ _ Hci).
    dec_in Hg.
    destruct (decide (c = j)) as [->|Hcj].
    + dec_in Hcl. injection Hcl as <-. eapply (Ha g i); eauto; lia.
    + dec_in Hcl. apply dominates_trans with ei; [eapply (Ha g i); eauto; lia|].
      eapply (Ha i c); eauto.
Qed.

Lemma up_correct (fuel : nat) (q : Queue) (m j : nat) :
  (j <= fuel)%nat -> (j < m)%nat -> (m <= length (heap q))%nat ->
  UpInv m (heap q) j -> HeapOK m (heap (up fuel q j)).
Proof.
  revert q j. induction fuel as [|fuel IH]; intros q j Hf Hjm Hm [Ha Hb]; simpl.
  - intros p c ep ec Hcp Hc Hp Hcl. eapply Ha; eauto. unfold child in Hcp. lia.
  - destruct (j =? 0)%nat eqn:Hj0.
    + apply Nat.eqb_eq in Hj0. subst j.
      intros p c ep ec Hcp Hc Hp Hcl. eapply Ha; eauto. unfold child in Hcp. lia.
    + apply Nat.eqb_neq in Hj0.
      set (i := parent j).
      pose proof (child_parent j ltac:(lia)) as Hc. fold i in Hc.
      pose proof (child_lt _ _ Hc).
      destruct (lookup_lt_is_Some_2 (heap q) i ltac:(lia)) as [ei Hi].
      destruct (lookup_lt_is_Some_2 (heap q) j ltac:(lia)) as [ej Hj].
      rewrite (less_some q j i ej ei Hj Hi).
      destruct (higher ej ei) eqn:Hhi.
      * apply IH; [lia | lia | rewrite length_swap; lia |].
        rewrite (swap_some q i j ei ej Hi Hj). simpl.
        apply up_step_inv; auto. split; auto.
      * intros p c ep ec Hcp Hcm Hp Hcl.
        destruct (decide (c = j)) as [->|Hcj]; [|eapply Ha; eauto].
        pose proof (child_unique _ _ _ Hcp Hc) as ->.
        rewrite Hi in Hp. rewrite Hj in Hcl. congruence.
Qed.

(** *** [down] *)

Lemma downLoop_SwapReach (fuel : nat) (q : Queue) (i n : nat) :
  SwapReach q (fst (downLoop fuel q i n)).
Proof.
  revert q i. induction fuel as [|fuel IH]; intros q i; simpl; [constructor|].
  case_match; [constructor|].
  case_match; [apply (sr_step _ _ _ _ (IH _ _)) | constructor].
Qed.

Lemma downLoop_pos (fuel : nat) (q : Queue) (i n : nat) :
  (i <= snd (downLoop fuel q i n))%nat /\
  (snd (downLoop fuel q i n) = i -> fst (downLoop fuel q i n) = q).
Proof.
  revert q i. induction fuel as [|fuel IH]; intros q i; cbn [downLoop]; [done|].
  case_match; [done|].
  set (j := if ((2 * i + 1 + 1 <? n)%nat && less q (2 * i + 1 + 1) (2 * i + 1))
            then (2 * i + 1 + 1)%nat else (2 * i + 1)%nat).
  assert (Hj : (i < j)%nat) by (unfold j; case_match; lia).
  case_match; [|done].
  destruct (IH (swap q i j) j) as [H1 H2]. split; [lia|]. intros Heq. lia.
Qed.

(** [down] on the prefix [n] leaves the positions from [n] on alone. *)
Lemma downLoop_above (fuel : nat) (q : Queue) (i n k : nat) :
  (n <= k)%nat -> heap (fst (downLoop fuel q i n)) !! k = heap q !! k.
Proof.
  revert q i. induction fuel as [|fuel IH]; intros q i Hk; cbn [downLoop]; [done|].
  destruct (n <=? 2 * i + 1)%nat eqn:Hn; [done|]. apply Nat.leb_gt in Hn.
  set (j := if ((2 * i + 1 + 1 <? n)%nat && less q (2 * i + 1 + 1) (2 * i + 1))
            then (2 * i + 1 + 1)%nat else (2 * i + 1)%nat).
  assert (Hj : (i < j /\ j < n)%nat).
  { unfold j. destruct (2 * i + 1 + 1 <? n)%nat eqn:E; simpl; [|lia].
    apply Nat.ltb_lt in E. case_match; lia. }
  case_match; [|done].
  rewrite IH by lia.
  destruct (swap_cases q i j) as [-> | (ei & ej & Hi & Hj' & _)]; [done|].
  rewrite (lookup_swap _ _ _ _ _ _ Hi Hj'). dec_in_goal.
Qed.

Lemma down_step_inv (m : nat) (h : list entry) (i j : nat) (ei ej : entry) :
  child j i -> (j < m)%nat -> h !! i = Some ei -> h !! j = Some ej ->
  higher ej ei = true ->
  (forall o eo, child o i -> (o < m)%nat -> h !! o = Some eo -> dominates ej eo) ->
  DownInv m h i -> DownInv m (<[i:=ej]> (<[j:=ei]> h)) j.
Proof.
  intros Hc Hjm Hi Hj Hhi Hbest [Ha Hb].
  pose proof (child_lt _ _ Hc) as Hij.
  pose proof (lookup_swap_list h i j) as L.
  split.
  - intros p c ep ec Hcp Hcm Hpj Hp Hcl.
    rewrite (L p ei ej Hi Hj) in Hp. rewrite (L c ei ej Hi Hj) in Hcl.
    pose proof (child_lt _ _ Hcp).
    destruct (decide (p = i)) as [->|Hpi].
    + dec_in Hp. injection Hp as <-.
      destruct (decide (c = j)) as [->|Hcj].
      * dec_in Hcl. injection Hcl as <-. auto with heap.
      * dec_in Hcl. eapply Hbest; eauto.
    + dec_in Hp.
      destruct (decide (c = i)) as [->|Hci].
      * dec_in Hcl. injection Hcl as <-. eapply (Hb p j); eauto.
      * destruct (decide (c = j)) as [->|Hcj].
        -- exfalso. apply Hpi. exact (child_unique _ _ _ Hcp Hc).
        -- dec_in Hcl. eapply Ha; eauto.
  - intros g c eg ec Hjg Hcj Hcm Hg Hcl.
    pose proof (child_unique _ _ _ Hjg Hc) as ->.
    rewrite (L i ei ej Hi Hj) in Hg. rewrite (L c ei ej Hi Hj) in Hcl.
    pose proof (child_lt _ _ Hcj).
    dec_in Hg. dec_in Hcl. injection Hg as <-.
    eapply (Ha j c); eauto. lia.
Qed.

Lemma downLoop_nomove (fuel : nat) (q : Queue) (i n : nat) (ei : entry) :
  (n <= length (heap q))%nat -> heap q !! i = Some ei ->
  (forall c ec, child c i -> (c < n)%nat -> heap q !! c = Some ec -> dominates ei ec) ->
  downLoop fuel q i n = (q, i).
Proof.
  intros Hn Hi Hdom. destruct fuel as [|fuel]; cbn [downLoop]; [done|].
  destruct (n <=? 2 * i + 1)%nat eqn:Hn1; [done|]. apply Nat.leb_gt in Hn1.
  set (j := if ((2 * i + 1 + 1 <? n)%nat && less q (2 * i + 1 + 1) (2 * i + 1))
            then (2 * i + 1 + 1)%nat else (2 * i + 1)%nat).
  assert (Hj : child j i /\ (j < n)%nat).
  { unfold j, child. destruct (2 * i + 1 + 1 <? n)%nat eqn:E; simpl; [|lia].
    apply Nat.ltb_lt in E. case_match; lia. }
  destruct Hj as [Hcj Hjn].
  destruct (lookup_lt_is_Some_2 (heap q) j ltac:(lia)) as [ej Hej].
  rewrite (less_some q j i ej ei Hej Hi).
  pose proof (Hdom j ej Hcj Hjn Hej) as Hd. unfold dominates in Hd. by rewrite Hd.
Qed.

Lemma downLoop_correct (fuel : nat) (q : Queue) (i n : nat) :
  (n - i <= fuel)%nat -> (n <= length (heap q))%nat ->
  DownInv n (heap q) i -> HeapOK n (heap (fst (downLoop fuel q i n))).
Proof.
  revert q i. induction fuel as [|fuel IH]; intros q i Hf Hn [Ha Hb]; cbn [downLoop].
  - intros p c ep ec Hcp Hc Hp Hcl. simpl in Hp, Hcl.
    destruct (decide (p = i)) as [->|Hpi]; [unfold child in Hcp; lia|].
    eapply Ha; eauto.
  - destruct (n <=? 2 * i + 1)%nat eqn:Hn1.
    { apply Nat.leb_le in Hn1. intros p c ep ec Hcp Hc Hp Hcl. simpl in Hp, Hcl.
      destruct (decide (p = i)) as [->|Hpi]; [unfold child in Hcp; lia|].
      eapply Ha; eauto. }
    apply Nat.leb_gt in Hn1.
    destruct (lookup_lt_is_Some_2 (heap q) i ltac:(lia)) as [ei Hi].
    destruct (lookup_lt_is_Some_2 (heap q) (2 * i + 1) ltac:(lia)) as [e1 He1].
    set (j := if ((2 * i + 1 + 1 <? n)%nat && less q (2 * i + 1 + 1) (2 * i + 1))
              then (2 * i + 1 + 1)%nat else (2 * i + 1)%nat).
    assert (Hsel : exists ej, child j i /\ (j < n)%nat /\ heap q !! j = Some ej /\
              forall o eo, child o i -> (o < n)%nat -> heap q !! o = Some eo -> dominates ej eo).
    { unfold j. destruct (2 * i + 1 + 1 <? n)%nat eqn:E; cbn [andb].
      - apply Nat.ltb_lt in E.
        destruct (lookup_lt_is_Some_2 (heap q) (2 * i + 1 + 1) ltac:(lia)) as [e2 He2].
        assert (He2' : heap q !! (2 * i + 2)%nat = Some e2)
          by (replace (2 * i + 2)%nat with (2 * i + 1 + 1)%nat by lia; exact He2).
        rewrite (less_some q _ _ e2 e1 He2 He1).
        destruct (higher e2 e1) eqn:H21.
        + exists e2. split; [unfold child; lia|]. split; [lia|]. split; [done|].
          intros o eo Ho Hon Heo. unfold child in Ho.
          destruct Ho as [-> | ->].
          * rewrite He1 in Heo. injection Heo as <-. auto with heap.
          * rewrite He2' in Heo. injection Heo as <-. auto with heap.
        + exists e1. split; [unfold child; lia|]. split; [lia|]. split; [done|].
          intros o eo Ho Hon Heo. unfold child in Ho.
          destruct Ho as [-> | ->].
          * rewrite He1 in Heo. injection Heo as <-. auto with heap.
          * rewrite He2' in Heo. injection Heo as <-. exact H21.
      - apply Nat.ltb_ge in E.
        exists e1. split; [unfold child; lia|]. split; [lia|]. split; [done|].
        intros o eo Ho Hon Heo. unfold child in Ho.
        destruct Ho as [-> | ->]; [|lia].
        rewrite He1 in Heo. injection Heo as <-. auto with heap. }
    destruct Hsel as (ej & Hcj & Hjn & Hej & Hbest).
    pose proof (child_lt _ _ Hcj).
    rewrite (less_some q j i ej ei Hej Hi).
    destruct (higher ej ei) eqn:Hhi.
    + apply IH; [lia | rewrite length_swap; lia |].
      rewrite (swap_some q i j ei ej Hi Hej). simpl.
      apply down_step_inv; auto. split; auto.
    + intros p c ep ec Hcp Hc Hp Hcl. simpl in Hp, Hcl.
      destruct (decide (p = i)) as [->|Hpi]; [|eapply Ha; eauto].
      rewrite Hi in Hp. injection Hp as <-.
      apply dominates_trans with ej; [exact Hhi|]. eapply Hbest; eauto.
Qed.

(** *** The root is the maximum *)

Lemma root_max (m : nat) (h : list entry) (r : entry) :
  HeapOK m h -> h !! 0%nat = Some r ->
  forall k e, (k < m)%nat -> h !! k = Some e -> dominates r e.
Proof.
  intros Hok Hr k. induction k as [k IH] using lt_wf_ind. intros e Hkm Hk.
  destruct (decide (k = 0%nat)) as [->|Hk0].
  - rewrite Hr in Hk. injection Hk as <-. auto with heap.
  - pose proof (child_parent k ltac:(lia)) as Hc. pose proof (child_lt _ _ Hc).
    destruct (lookup_lt_is_Some_2 h (parent k)) as [ep Hp].
    { apply lookup_lt_Some in Hk. lia. }
    apply dominates_trans with ep; [apply (IH (parent k)); auto; lia|].
    eapply Hok; eauto.
Qed.

(** *** Dropping the last entry *)

Lemma split_last (h : list entry) (n : nat) (e : entry) :
  length h = S n -> h !! n = Some e -> h = take n h ++ [e].
Proof.
  intros Hl He. rewrite <- (take_drop_middle h n e He) at 1.
  f_equal. f_equal. apply nil_length_inv. rewrite length_drop. lia.
Qed.

Lemma popLast_app (q : Queue) (h : list entry) (e : entry) :
  heap q = h ++ [e] ->
  popLast q = (Some e, mkQueue h (delete (ekey e) (index q)) (nextSeq q)).
Proof.
  intros Hq. unfold popLast. rewrite Hq, last_snoc. f_equal. f_equal.
  apply take_app_length'. rewrite length_app. simpl. lia.
Qed.

Lemma HeapOK_prefix (m : nat) (h h' : list entry) :
  (m <= length h)%nat -> HeapOK m (h ++ h') -> HeapOK m h.
Proof.
  intros Hm Hok p c ep ec Hcp Hc Hp Hcl. pose proof (child_lt _ _ Hcp).
  eapply Hok; eauto; apply lookup_app_l_Some; assumption.
Qed.

Lemma IndexOK_popLast (q : Queue) (h : list entry) (e : entry) :
  heap q = h ++ [e] -> IndexOK q ->
  IndexOK (mkQueue h (delete (ekey e) (index q)) (nextSeq q)).
Proof.
  intros Hq Hok. pose proof Hok as [H1 H2].
  assert (Hn : heap q !! length h = Some e).
  { rewrite Hq, lookup_app_r by lia. by rewrite Nat.sub_diag. }
  split; simpl.
  - intros k a Hk.
    assert (Hk' : heap q !! k = Some a) by (rewrite Hq; by apply lookup_app_l_Some).
    pose proof (lookup_lt_Some _ _ _ Hk).
    rewrite lookup_delete_ne; [by apply H1|].
    intros Heq. pose proof (IndexOK_unique q k (length h) a e Hok Hk' Hn (eq_sym Heq)). lia.
  - intros k p Hk. apply lookup_delete_Some in Hk as [Hne Hk].
    destruct (H2 _ _ Hk) as (a & Ha & <-).
    destruct (decide (p = length h)) as [->|Hp].
    + rewrite Hn in Ha. injection Ha as ->. congruence.
    + exists a. split; [|done]. rewrite Hq in Ha.
      pose proof (lookup_lt_Some _ _ _ Ha). rewrite length_app in H. simpl in H.
      rewrite lookup_app_l in Ha by lia. done.
Qed.

Lemma SeqOK_popLast (q : Queue) (h : list entry) (e : entry) :
  heap q = h ++ [e] -> SeqOK q ->
  SeqOK (mkQueue h (delete (ekey e) (index q)) (nextSeq q)).
Proof.
  intros Hq [Hnd Hlt]. rewrite Hq, fmap_app in Hnd. split; simpl.
  - by apply NoDup_app in Hnd as [? _].
  - intros a Ha. apply Hlt. rewrite Hq. apply elem_of_app. by left.
Qed.

(** *** PopMax *)

Lemma fst_down (q : Queue) (i n : nat) : fst (down q i n) = fst (downLoop n q i n).
Proof. unfold down. by destruct (downLoop n q i n). Qed.

Lemma PopMax_Inv (q : Queue) :
  Inv q -> heap q <> [] ->
  exists r q', heap q !! 0%nat = Some r /\ PopMax q = (Some (job r), q') /\
    heap q ≡ₚ heap q' ++ [r] /\ nextSeq q' = nextSeq q /\ Inv q'.
Proof.
  intros (Hok & Hidx & Hseq) Hne.
  destruct (heap q) as [|e0 t] eqn:Eh; [done|].
  set (n := length t).
  assert (Hr : heap q !! 0%nat = Some e0) by (by rewrite Eh).
  destruct (lookup_lt_is_Some_2 (heap q) n) as [en Hn]; [rewrite Eh; simpl; lia|].
  set (q1 := swap q 0 n).
  set (q2 := fst (downLoop n q1 0 n)).
  assert (Hq : PopMax q = (let '(e, q3) := popLast q2 in (job <$> e, q3))).
  { unfold PopMax. rewrite Eh. rewrite <- Eh.
    replace (length (heap q) - 1)%nat with n by (rewrite Eh; simpl; lia).
    by rewrite fst_down. }
  assert (Hr12 : SwapReach q q2).
  { eapply SwapReach_trans; [apply SwapReach_swap|apply downLoop_SwapReach]. }
  assert (Hl1 : length (heap q1) = S n) by (unfold q1; rewrite length_swap, Eh; done).
  assert (Hl2 : length (heap q2) = S n) by (rewrite (SwapReach_length _ _ Hr12), Eh; done).
  assert (Hq2n : heap q2 !! n = Some e0).
  { unfold q2. rewrite downLoop_above by lia. unfold q1.
    rewrite (lookup_swap q 0 n n e0 en Hr Hn).
    destruct (decide (n = 0%nat)) as [Hn0|Hn0]; [|by rewrite decide_True].
    rewrite Hn0 in Hn. congruence. }
  pose proof (split_last _ _ _ Hl2 Hq2n) as Hsplit.
  rewrite (popLast_app q2 _ _ Hsplit) in Hq. simpl in Hq.
  eexists e0, _. split; [done|]. split; [exact Hq|].
  destruct (SwapReach_props _ _ Hr12) as (Hp & Hns & Hi).
  split; [|split]; simpl.
  - rewrite <- Hsplit, Hp, Eh. done.
  - done.
  - split; [|split].
    + cbn [heap]. rewrite length_take, Hl2. replace (Nat.min n (S n)) with n by lia.
      apply (HeapOK_prefix _ _ [e0]); [rewrite length_take; lia|].
      rewrite <- Hsplit. unfold q2. apply downLoop_correct; [lia|lia|].
      split.
      * intros p c ep ec Hcp Hc Hp0 Hpl Hcl. pose proof (child_lt _ _ Hcp).
        unfold q1 in Hpl, Hcl.
        rewrite (lookup_swap q 0 n p e0 en Hr Hn) in Hpl.
        rewrite (lookup_swap q 0 n c e0 en Hr Hn) in Hcl.
        dec_in Hpl. dec_in Hcl. rewrite Eh in Hpl, Hcl.
        eapply Hok; eauto. simpl. lia.
      * intros g c eg ec Hg. pose proof (child_lt _ _ Hg). lia.
    + apply (IndexOK_popLast q2 _ _ Hsplit). by apply Hi.
    + apply (SeqOK_popLast q2 _ _ Hsplit). apply (SwapReach_SeqOK q); [done|].
      exact Hseq.
Qed.

(** *** Push *)

Lemma map_insert_same {A B} (f : A -> B) (l : list A) (i : nat) (x y : A) :
  l !! i = Some y -> f x = f y -> map f (<[i:=x]> l) = map f l.
Proof.
  revert i. induction l as [|a l IH]; intros i Hi Hf; [done|].
  destruct i as [|i]; simpl in *; [congruence|]. by rewrite IH.
Qed.

Lemma Inv_SwapReach (q q' : Queue) :
  SwapReach q q' -> HeapOK (length (heap q')) (heap q') -> IndexOK q -> SeqOK q -> Inv q'.
Proof.
  intros Hr Hh Hi Hs. split; [done|]. split; [by apply (SwapReach_props _ _ Hr)|].
  by apply (SwapReach_SeqOK q).
Qed.

Section Replace.
Variables (q : Queue) (j : Job) (i : nat) (old : entry).
Hypothesis (Hidx : IndexOK q) (Hold : heap q !! i = Some old) (Hkey : ekey old = key j).

Local Abbreviation ne := (mkEntry j (seq old)) (only parsing).
Local Abbreviation q1 := (mkQueue (<[i:=ne]> (heap q)) (index q) (nextSeq q)) (only parsing).

Lemma Push_present : index q !! key j = Some i /\
  Push q j = if score (job old) <? score j then up i q1 i
             else fst (downLoop (length (heap q)) q1 i (length (heap q))).
Proof.
  assert (Hi : index q !! key j = Some i) by (rewrite <- Hkey; by apply Hidx).
  split; [done|]. unfold Push. rewrite Hi, Hold. case_match; [done|]. apply fst_down.
Qed.

Lemma IndexOK_replace : IndexOK q1.
Proof.
  pose proof Hidx as [H1 H2]. pose proof (lookup_lt_Some _ _ _ Hold) as Hlt.
  split; simpl.
  - intros k e Hk. destruct (decide (k = i)) as [->|Hne].
    + rewrite list_lookup_insert_eq in Hk by done. injection Hk as <-.
      replace (ekey ne) with (ekey old) by (by rewrite Hkey). by apply H1.
    + rewrite list_lookup_insert_ne in Hk by done. by apply H1.
  - intros k p Hk. destruct (H2 _ _ Hk) as (e & He & <-).
    destruct (decide (p = i)) as [->|Hne].
    + exists ne. rewrite list_lookup_insert_eq by done. split; [done|].
      rewrite Hold in He. injection He as <-. by rewrite Hkey.
    + exists e. by rewrite list_lookup_insert_ne.
Qed.

Lemma SeqOK_replace : SeqOK q -> SeqOK q1.
Proof.
  intros [Hnd Hlt]. split; simpl.
  - by rewrite (map_insert_same seq _ _ ne old Hold).
  - intros e He. apply list_elem_of_lookup in He as [k Hk].
    destruct (decide (k = i)) as [->|Hne].
    + rewrite list_lookup_insert_eq in Hk by (eapply lookup_lt_Some; eauto).
      injection Hk as <-. simpl. apply Hlt. by eapply list_elem_of_lookup_2.
    + rewrite list_lookup_insert_ne in Hk by done. apply Hlt.
      by eapply list_elem_of_lookup_2.
Qed.

Lemma Push_present_Inv : Inv q -> Inv (Push q j).
Proof.
  intros (Hok & _ & Hseq). pose proof (lookup_lt_Some _ _ _ Hold) as Hlt.
  assert (Hlook : forall k, heap q1 !! k =
            if decide (k = i) then Some ne else heap q !! k).
  { intros k. simpl. case_decide; subst.
    - by rewrite list_lookup_insert_eq.
    - by rewrite list_lookup_insert_ne. }
  assert (Hl1 : length (heap q1) = length (heap q)) by (simpl; by rewrite length_insert).
  pose proof IndexOK_replace as Hi1. pose proof (SeqOK_replace Hseq) as Hs1.
  destruct Push_present as [_ ->].
  destruct (score (job old) <? score j) eqn:Hs.
  - apply Z.ltb_lt in Hs.
    apply (Inv_SwapReach q1); [apply up_SwapReach| |done|done].
    rewrite (SwapReach_length _ _ (up_SwapReach _ _ _)), Hl1.
    apply up_correct; [lia|lia|lia|].
    split.
    + intros p c ep ec Hcp Hc Hci Hpl Hcl. rewrite Hlook in Hpl, Hcl.
      dec_in Hcl. pose proof (child_lt _ _ Hcp).
      destruct (decide (p = i)) as [->|Hpi].
      * dec_in Hpl. injection Hpl as <-.
        pose proof (Hok i c old ec Hcp Hc Hold Hcl) as Hd.
        rewrite dominates_iff in Hd |- *. unfold escore in *. simpl. lia.
      * dec_in Hpl. eapply Hok; eauto.
    + intros g c eg ec Hg Hc Hcm Hgl Hcl. rewrite Hlook in Hgl, Hcl.
      pose proof (child_lt _ _ Hg). pose proof (child_lt _ _ Hc).
      dec_in Hgl. dec_in Hcl.
      apply dominates_trans with old; [eapply (Hok g i)|eapply (Hok i c)]; eauto; lia.
  - apply Z.ltb_ge in Hs.
    apply (Inv_SwapReach q1); [apply downLoop_SwapReach| |done|done].
    rewrite (SwapReach_length _ _ (downLoop_SwapReach _ _ _ _)), Hl1.
    apply downLoop_correct; [lia|lia|].
    split.
    + intros p c ep ec Hcp Hc Hpi Hpl Hcl. rewrite Hlook in Hpl, Hcl.
      dec_in Hpl. pose proof (child_lt _ _ Hcp).
      destruct (decide (c = i)) as [->|Hci].
      * dec_in Hcl. injection Hcl as <-.
        pose proof (Hok p i ep old Hcp ltac:(lia) Hpl Hold) as Hd.
        rewrite dominates_iff in Hd |- *. unfold escore in *. simpl. lia.
      * dec_in Hcl. eapply Hok; eauto.
    + intros g c eg ec Hg Hc Hcm Hgl Hcl. rewrite Hlook in Hgl, Hcl.
      pose proof (child_lt _ _ Hg). pose proof (child_lt _ _ Hc).
      dec_in Hgl. dec_in Hcl.
      apply dominates_trans with old; [eapply (Hok g i)|eapply (Hok i c)]; eauto; lia.
Qed.

Lemma Push_present_perm :
  heap (Push q j) ≡ₚ <[i:=mkEntry j (seq old)]> (heap q) /\ nextSeq (Push q j) = nextSeq q.
Proof.
  destruct Push_present as [_ ->].
  case_match; [destruct (SwapReach_props _ _ (up_SwapReach i q1 i)) as (Hp & Hn & _)
              |destruct (SwapReach_props _ _ (downLoop_SwapReach (length (heap q)) q1 i
                                               (length (heap q)))) as (Hp & Hn & _)];
    by rewrite Hp, Hn.
Qed.

End Replace.

Section Insert.
Variables (q : Queue) (j : Job).
Hypothesis (Habs : index q !! key j = None).

Local Abbreviation ne := (mkEntry j (nextSeq q)) (only parsing).
Local Abbreviation q1 := (mkQueue (heap q ++ [ne]) (<[key j := length (heap q)]> (index q)) (S (nextSeq q))) (only parsing).

Lemma Push_absent : Push q j = up (length (heap q)) q1 (length (heap q)).
Proof. unfold Push. by rewrite Habs. Qed.

Lemma IndexOK_insert : IndexOK q -> IndexOK q1.
Proof.
  intros Hidx. pose proof Hidx as [H1 H2]. split; simpl.
  - intros k e Hk. apply lookup_app_Some in Hk as [Hk|[Hge Hk]].
    + pose proof (H1 _ _ Hk) as He. rewrite lookup_insert_ne; [done|].
      intros Heq. rewrite Heq in Habs. congruence.
    + apply list_lookup_singleton_Some in Hk as [Hd <-].
      replace k with (length (heap q)) by lia. by rewrite lookup_insert_eq.
  - intros k p Hk. destruct (decide (k = key j)) as [->|Hne].
    + rewrite lookup_insert_eq in Hk. injection Hk as <-. exists ne.
      rewrite lookup_app_r, Nat.sub_diag by lia. done.
    + rewrite lookup_insert_ne in Hk by congruence.
      destruct (H2 _ _ Hk) as (e & He & Hek). exists e.
      split; [by apply lookup_app_l_Some|done].
Qed.

Lemma SeqOK_insert : SeqOK q -> SeqOK q1.
Proof.
  intros [Hnd Hlt]. split; simpl.
  - rewrite map_app. simpl. apply NoDup_app. split; [done|]. split.
    + intros x Hx Hin. apply list_elem_of_singleton in Hin. subst x.
      apply list_elem_of_fmap in Hx as (e & He & Hin).
      pose proof (Hlt _ Hin). simpl in He. lia.
    + apply NoDup_singleton.
  - intros e He. apply elem_of_app in He as [He|He].
    + pose proof (Hlt _ He). lia.
    + apply list_elem_of_singleton in He. subst e. simpl. lia.
Qed.

Lemma Push_absent_Inv : Inv q -> Inv (Push q j).
Proof.
  intros (Hok & Hidx & Hseq). rewrite Push_absent.
  apply (Inv_SwapReach q1); [apply up_SwapReach| |by apply IndexOK_insert|by apply SeqOK_insert].
  rewrite (SwapReach_length _ _ (up_SwapReach _ _ _)).
  assert (Hl : length (heap q1) = S (length (heap q))) by (simpl; rewrite length_app; simpl; lia).
  rewrite Hl. apply up_correct; [lia|lia|lia|]. simpl.
  split.
  - intros p c ep ec Hcp Hc Hcn Hpl Hcl. pose proof (child_lt _ _ Hcp).
    rewrite lookup_app_l in Hpl, Hcl by lia. eapply Hok; eauto. lia.
  - intros g c eg ec Hg Hc. pose proof (child_lt _ _ Hc). lia.
Qed.

Lemma Push_absent_perm :
  heap (Push q j) ≡ₚ heap q ++ [mkEntry j (nextSeq q)] /\ nextSeq (Push q j) = S (nextSeq q).
Proof.
  rewrite Push_absent.
  destruct (SwapReach_props _ _ (up_SwapReach (length (heap q)) q1 (length (heap q))))
    as (Hp & Hn & _).
  by rewrite Hp, Hn.
Qed.

End Insert.

Lemma Push_Inv (q : Queue) (j : Job) : Inv q -> Inv (Push q j).
Proof.
  intros Hinv. pose proof Hinv as (_ & [H1 H2] & _).
  destruct (index q !! key j) as [i|] eqn:Hk.
  - destruct (H2 _ _ Hk) as (old & Hold & Hkey).
    by apply (Push_present_Inv q j i old).
  - by apply Push_absent_Inv.
Qed.

(** *** Remove *)

Lemma up_stays (q : Queue) (i : nat) (ei : entry) :
  heap q !! i = Some ei ->
  (forall hp, i <> 0%nat -> heap q !! parent i = Some hp -> higher ei hp = false) ->
  up i q i = q.
Proof.
  intros Hi Hnh. destruct i as [|i']; [done|]. simpl.
  destruct (lookup_lt_is_Some_2 (heap q) (parent (S i'))) as [hp Hp].
  { pose proof (child_lt _ _ (child_parent (S i') ltac:(lia))).
    apply lookup_lt_Some in Hi. lia. }
  rewrite (less_some q _ _ ei hp Hi Hp), (Hnh hp); done.
Qed.

Lemma Remove_core (q : Queue) (i : nat) (e : entry) :
  Inv q -> heap q !! i = Some e ->
  let n := (length (heap q) - 1)%nat in
  let q1 := if (n =? i)%nat then q
            else let '(q', moved) := down (swap q i n) i n in
                 if moved then q' else up i q' i in
  SwapReach q q1 /\ heap q1 !! n = Some e /\ HeapOK n (heap q1).
Proof.
  intros (Hok & Hidx & Hseq) He n q1.
  pose proof (lookup_lt_Some _ _ _ He) as Hil.
  unfold q1. destruct (n =? i)%nat eqn:Hni.
  { apply Nat.eqb_eq in Hni. split; [constructor|]. split; [by rewrite Hni|].
    intros p c ep ec Hcp Hc. eapply Hok; eauto. lia. }
  apply Nat.eqb_neq in Hni.
  destruct (lookup_lt_is_Some_2 (heap q) n) as [en Hn]; [lia|].
  set (qs := swap q i n).
  assert (Hlook : forall k, heap qs !! k =
            if decide (k = i) then Some en else if decide (k = n) then Some e else heap q !! k)
    by (intros k; apply lookup_swap; done).
  assert (Hls : length (heap qs) = length (heap q)) by apply length_swap.
  (* the entries below [i] are dominated by [e], hence by anything above it *)
  assert (Hbelow : forall c ec, child c i -> (c < n)%nat -> heap qs !! c = Some ec ->
                     dominates e ec).
  { intros c ec Hc Hcn Hcl. pose proof (child_lt _ _ Hc). rewrite Hlook in Hcl.
    dec_in Hcl. eapply (Hok i c); eauto. lia. }
  assert (Hgrand : forall g c eg ec, child i g -> child c i -> (c < n)%nat ->
                     heap qs !! g = Some eg -> heap qs !! c = Some ec -> dominates eg ec).
  { intros g c eg ec Hg Hc Hcn Hgl Hcl. pose proof (child_lt _ _ Hg).
    pose proof (Hbelow _ _ Hc Hcn Hcl). rewrite Hlook in Hgl. dec_in Hgl.
    apply dominates_trans with e; [|done]. eapply (Hok g i); eauto; lia. }
  unfold down. destruct (downLoop n qs i n) as [q' i'] eqn:Hdl.
  (* otherwise the heap order holds above [i] and [down] restores it below *)
  assert (Hdown : (forall hp, i <> 0%nat -> heap q !! parent i = Some hp -> higher en hp = false) ->
     SwapReach q (if (i <? i')%nat then q' else up i q' i) /\
     heap (if (i <? i')%nat then q' else up i q' i) !! n = Some e /\
     HeapOK n (heap (if (i <? i')%nat then q' else up i q' i))).
  { intros Hnot.
    assert (Hdi : DownInv n (heap qs) i).
    { split; [|exact Hgrand].
      intros p c ep ec Hcp Hc Hp Hpl Hcl. pose proof (child_lt _ _ Hcp).
      rewrite Hlook in Hpl. dec_in Hpl.
      destruct (decide (c = i)) as [->|Hci].
      - rewrite Hlook in Hcl. dec_in Hcl. injection Hcl as <-.
        pose proof (child_unique _ _ _ Hcp (child_parent i ltac:(lia))) as ->.
        unfold dominates. eapply Hnot; [lia|done].
      - rewrite Hlook in Hcl. dec_in Hcl. eapply Hok; eauto. lia. }
    pose proof (downLoop_correct n qs i n ltac:(lia) ltac:(lia) Hdi) as Hd.
    pose proof (downLoop_SwapReach n qs i n) as Hsr.
    pose proof (downLoop_above n qs i n n ltac:(lia)) as Hab.
    pose proof (downLoop_pos n qs i n) as [Hpos Hsame].
    rewrite Hdl in Hd, Hsr, Hab, Hpos, Hsame. simpl in *.
    assert (Hsn : heap qs !! n = Some e) by (rewrite Hlook; by dec_in_goal).
    destruct (i <? i')%nat eqn:Hm.
    + split; [eapply SwapReach_trans; [apply SwapReach_swap|exact Hsr]|].
      split; [by rewrite Hab|exact Hd].
    + apply Nat.ltb_ge in Hm. rewrite Hsame in Hd |- * by lia.
      rewrite (up_stays qs i en); [|by rewrite Hlook; dec_in_goal|].
      * split; [apply SwapReach_swap|]. split; [exact Hsn|exact Hd].
      * intros hp Hi0 Hhp. rewrite Hlook in Hhp.
        pose proof (child_lt _ _ (child_parent i ltac:(lia))).
        dec_in Hhp. eapply Hnot; eauto. }
  destruct (decide (i = 0%nat)) as [Hi0|Hi0].
  { apply Hdown. intros; lia. }
  destruct (lookup_lt_is_Some_2 (heap q) (parent i)) as [hp Hhp].
  { pose proof (child_lt _ _ (child_parent i ltac:(lia))). lia. }
  destruct (higher en hp) eqn:Hhi.
  2:{ apply Hdown. intros hp' _ Hhp'. congruence. }
  (* the moved entry is above its new parent: [down] leaves it, [up] moves it *)
  pose proof (child_parent i ltac:(lia)) as Hpi. pose proof (child_lt _ _ Hpi).
  assert (Hen : forall c ec, child c i -> (c < n)%nat -> heap qs !! c = Some ec ->
                  dominates en ec).
  { intros c ec Hc Hcn Hcl. apply dominates_trans with hp; [by apply higher_dominates|].
    apply dominates_trans with e; [|by eapply Hbelow].
    eapply (Hok (parent i) i); eauto. }
  rewrite (downLoop_nomove n qs i n en) in Hdl; [|lia|by rewrite Hlook; dec_in_goal|done].
  injection Hdl as <- <-. rewrite Nat.ltb_irrefl.
  split; [eapply SwapReach_trans; [apply SwapReach_swap|apply up_SwapReach]|].
  split; [rewrite up_above by lia; rewrite Hlook; by dec_in_goal|].
  apply up_correct; [lia|lia|lia|]. split.
  + intros p c ep ec Hcp Hc Hci Hpl Hcl. pose proof (child_lt _ _ Hcp).
    destruct (decide (p = i)) as [->|Hp].
    * rewrite Hlook in Hpl. dec_in Hpl. injection Hpl as <-. by eapply Hen.
    * rewrite Hlook in Hpl, Hcl. dec_in Hpl. dec_in Hcl. eapply Hok; eauto. lia.
  + exact Hgrand.
Qed.

Lemma popLast_Inv (q q1 : Queue) (n : nat) (e : entry) :
  IndexOK q -> SeqOK q -> SwapReach q q1 -> length (heap q1) = S n ->
  heap q1 !! n = Some e -> HeapOK n (heap q1) ->
  exists q', popLast q1 = (Some e, q') /\ heap q ≡ₚ heap q' ++ [e] /\
    nextSeq q' = nextSeq q /\ Inv q'.
Proof.
  intros Hidx Hseq Hsr Hl Hn Hh.
  pose proof (split_last _ _ _ Hl Hn) as Hsplit.
  destruct (SwapReach_props _ _ Hsr) as (Hp & Hns & Hi).
  eexists. split; [apply (popLast_app q1 _ _ Hsplit)|]. simpl.
  split; [by rewrite <- Hsplit, Hp|]. split; [done|].
  split; [|split].
  - simpl. rewrite length_take, Hl. replace (Nat.min n (S n)) with n by lia.
    apply (HeapOK_prefix _ _ [e]); [rewrite length_take; lia|]. by rewrite <- Hsplit.
  - apply (IndexOK_popLast q1 _ _ Hsplit). by apply Hi.
  - apply (SeqOK_popLast q1 _ _ Hsplit). by apply (SwapReach_SeqOK q).
Qed.

Lemma Remove_found (q : Queue) (k : string) (i : nat) (e : entry) :
  Inv q -> index q !! k = Some i -> heap q !! i = Some e ->
  exists q', Remove q k = (true, q') /\ heap q ≡ₚ heap q' ++ [e] /\
    nextSeq q' = nextSeq q /\ Inv q'.
Proof.
  intros Hinv Hk He. pose proof (Remove_core q i e Hinv He) as Hc. cbv zeta in Hc.
  destruct Hc as (Hsr & Hn & Hh).
  pose proof (lookup_lt_Some _ _ _ He) as Hil.
  unfold Remove. rewrite Hk.
  match goal with |- context [popLast ?x] => set (q1 := x) in * end.
  destruct Hinv as (_ & Hidx & Hseq).
  destruct (popLast_Inv q q1 (length (heap q) - 1) e Hidx Hseq Hsr) as (q' & Hpop & Hrest);
    [rewrite (SwapReach_length _ _ Hsr); lia|done|done|].
  exists q'. by rewrite Hpop.
Qed.

Lemma Remove_absent (q : Queue) (k : string) :
  index q !! k = None -> Remove q k = (false, q).
Proof. intros Hk. unfold Remove. by rewrite Hk. Qed.

Lemma Remove_Inv (q : Queue) (k : string) : Inv q -> Inv (snd (Remove q k)).
Proof.
  intros Hinv. pose proof Hinv as (_ & [_ H2] & _).
  destruct (index q !! k) as [i|] eqn:Hk.
  - destruct (H2 _ _ Hk) as (e & He & _).
    destruct (Remove_found q k i e Hinv Hk He) as (q' & -> & _ & _ & Hq'). done.
  - by rewrite Remove_absent.
Qed.

Lemma PopMax_empty (q : Queue) : heap q = [] -> PopMax q = (None, q).
Proof. intros H. unfold PopMax. by rewrite H. Qed.

Lemma PopMax_Inv' (q : Queue) : Inv q -> Inv (snd (PopMax q)).
Proof.
  intros Hinv. destruct (heap q) as [|x t] eqn:Eh.
  - by rewrite PopMax_empty.
  - destruct (PopMax_Inv q Hinv) as (r & q' & _ & -> & _ & _ & Hq'); [by rewrite Eh|done].
Qed.

Lemma Inv_empty : Inv empty.
Proof.
  split; [|split; [split|split]]; simpl.
  - intros p c ep ec _ Hc. lia.
  - intros i e Hi. by rewrite lookup_nil in Hi.
  - intros k i Hk. by rewrite lookup_empty in Hk.
  - constructor.
  - intros e He. by apply not_elem_of_nil in He.
Qed.

Lemma Inv_applyOp (q : Queue) (op : Op) : Inv q -> Inv (applyOp q op).
Proof.
  intros Hinv. destruct op; simpl.
  - by apply Push_Inv.
  - by apply PopMax_Inv'.
  - by apply Remove_Inv.
Qed.

Lemma Inv_run (ops : list Op) : Inv (run ops).
Proof.
  unfold run. generalize Inv_empty. generalize empty.
  induction ops as [|op ops IH]; intros q Hq; simpl; [done|].
  apply IH. by apply Inv_applyOp.
Qed.

(** *** Keys present in the heap *)

Lemma present_index (q : Queue) (k : string) :
  IndexOK q -> (exists e, e ∈ heap q /\ ekey e = k) ->
  exists i old, index q !! k = Some i /\ heap q !! i = Some old /\ ekey old = k.
Proof.
  intros [H1 H2] (e & He & Hk). apply list_elem_of_lookup in He as [i Hi].
  exists i, e. split; [|done]. rewrite <- Hk. by apply H1.
Qed.

Lemma absent_index (q : Queue) (k : string) :
  IndexOK q -> (forall e, e ∈ heap q -> ekey e <> k) -> index q !! k = None.
Proof.
  intros [H1 H2] Hne. destruct (index q !! k) as [i|] eqn:Hk; [|done].
  destruct (H2 _ _ Hk) as (e & He & Hek). exfalso.
  apply (Hne e); [by eapply list_elem_of_lookup_2|done].
Qed.

Lemma Push_present_len (q : Queue) (j : Job) :
  Inv q -> (exists e, e ∈ heap q /\ ekey e = key j) ->
  Len (Push q j) = Len q /\ Inv (Push q j) /\
  exists e, e ∈ heap (Push q j) /\ ekey e = key j.
Proof.
  intros Hinv Hpres. pose proof Hinv as (_ & Hidx & _).
  destruct (present_index q (key j) Hidx Hpres) as (i & old & Hi & Hold & Hkey).
  destruct (Push_present_perm q j i old Hidx Hold Hkey) as [Hp _].
  pose proof (lookup_lt_Some _ _ _ Hold).
  split; [unfold Len; by rewrite Hp, length_insert|].
  split; [by apply Push_Inv|].
  exists (mkEntry j (seq old)). split; [|done].
  rewrite Hp. by apply list_elem_of_insert.
Qed.

Lemma Push_repeat (q : Queue) (j : Job) (js : list Job) :
  Inv q -> (exists e, e ∈ heap q /\ ekey e = key j) ->
  Forall (fun j' => key j' = key j) js ->
  Len (fold_left Push js q) = Len q.
Proof.
  revert q. induction js as [|j' js IH]; intros q Hinv Hpres Hall; [done|].
  inversion Hall as [|? ? Hk Hall']; subst. simpl.
  rewrite <- Hk in Hpres.
  destruct (Push_present_len q j' Hinv Hpres) as (Hl & Hinv' & Hpres').
  rewrite Hk in Hpres'. by rewrite IH.
Qed.

(** *** Popping the maximum *)

Lemma PopMax_max (q : Queue) (j : Job) (q' : Queue) :
  Inv q -> PopMax q = (Some j, q') ->
  exists r, job r = j /\ heap q ≡ₚ r :: heap q' /\
    forall e, e ∈ heap q' -> escore e < escore r \/ (escore e = escore r /\ (seq r < seq e)%nat).
Proof.
  intros Hinv Hpop. pose proof Hinv as (Hok & _ & [Hnd _]).
  destruct (heap q) as [|x t] eqn:Eh.
  { rewrite PopMax_empty in Hpop by done. discriminate. }
  destruct (PopMax_Inv q Hinv) as (r & q'' & Hr & Hpop' & Hp & _); [by rewrite Eh|].
  rewrite Eh in Hp, Hr. rewrite Hpop in Hpop'. injection Hpop' as Hj Hq; subst.
  exists r. split; [done|]. split; [rewrite Hp; symmetry; apply Permutation_cons_append|].
  rewrite Hp, map_app in Hnd. simpl in Hnd.
  apply NoDup_app in Hnd as (_ & Hdis & _).
  intros e He.
  assert (Hin : e ∈ x :: t) by (rewrite Hp; apply elem_of_app; by left).
  apply list_elem_of_lookup in Hin as [k Hk].
  pose proof (root_max _ _ r Hok Hr k e ltac:(apply lookup_lt_Some in Hk; lia) Hk) as Hd.
  assert (Hs : seq e <> seq r).
  { intros Heq. apply (Hdis (seq e)).
    - apply list_elem_of_fmap. by exists e.
    - rewrite Heq. by apply list_elem_of_singleton. }
  rewrite dominates_iff in Hd. lia.
Qed.

Lemma tie_two (ja jb : Job) :
  key ja <> key jb -> score ja = score jb ->
  let q := run [OpPush ja; OpPush jb] in
  fst (PopMax q) = Some ja /\ fst (PopMax (snd (PopMax q))) = Some jb.
Proof.
  intros Hk Hs.
  assert (Hq : run [OpPush ja; OpPush jb] =
               mkQueue [mkEntry ja 0; mkEntry jb 1] (<[key jb:=1%nat]> (<[key ja:=0%nat]> ∅)) 2).
  { unfold run. cbn [fold_left applyOp].
    rewrite (Push_absent empty ja) by apply lookup_empty.
    unfold empty. cbn [heap index nextSeq length app up].
    rewrite Push_absent by (cbn [index]; rewrite lookup_insert_ne by congruence; apply lookup_empty).
    cbn [heap index nextSeq length app up Nat.eqb].
    unfold less. cbn [heap]. change (parent 1) with 0%nat. cbn [lookup list_lookup].
    unfold higher, escore. cbn [job seq]. rewrite Hs, Z.ltb_irrefl, Z.eqb_refl. done. }
  cbv zeta. rewrite Hq.
  unfold PopMax. cbn [heap length]. change (2 - 1)%nat with 1%nat.
  rewrite (swap_some _ 0 1 (mkEntry ja 0) (mkEntry jb 1)) by done.
  unfold down. cbn [downLoop heap Nat.leb]. unfold popLast. cbn [heap last length take].
  split; [done|].
  cbn [snd heap length]. change (1 - 1)%nat with 0%nat.
  unfold swap. cbn [heap lookup list_lookup]. unfold down. cbn [downLoop heap Nat.leb].
  unfold popLast. cbn. done.
Qed.

(** Claim C1: from every queue reached by a sequence of [Push], [PopMax] and
    [Remove] operations, [PopMax] on an empty queue returns [None] and leaves it
    unchanged; on a non-empty queue it returns [Some] job: it removes one
    entry [r] and returns its job, and every
    remaining entry has a lower score than [r] or the same score and a later
    insertion number. A key pushed while absent gets an insertion number above
    every entry present, and pushing two keys of equal score, A then B, pops A
    then B. *)
Theorem PopMax_spec (ops : list Op) :
  let q := run ops in
  (Len q = 0%nat <-> PopMax q = (None, q)) /\
  ((0 < Len q)%nat -> exists j q', PopMax q = (Some j, q')) /\
  (forall j q', PopMax q = (Some j, q') ->
     exists r, job r = j /\ heap q ≡ₚ r :: heap q' /\ Len q' = pred (Len q) /\
       forall e, e ∈ heap q' ->
         escore e < escore r \/ (escore e = escore r /\ (seq r < seq e)%nat)) /\
  (forall j, index q !! key j = None ->
     mkEntry j (nextSeq q) ∈ heap (Push q j) /\
     forall e, e ∈ heap q -> (seq e < nextSeq q)%nat) /\
  (forall ja jb, key ja <> key jb -> score ja = score jb ->
     let q2 := run [OpPush ja; OpPush jb] in
     fst (PopMax q2) = Some ja /\ fst (PopMax (snd (PopMax q2))) = Some jb).
Proof.
  intros q. pose proof (Inv_run ops) as Hinv. fold q in Hinv.
  split; [|split; [|split; [|split]]].
  - unfold Len. split.
    + intros Hl. apply nil_length_inv in Hl. by apply PopMax_empty.
    + intros Hpop. destruct (heap q) as [|x t] eqn:Eh; [done|].
      destruct (PopMax_Inv q Hinv) as (r & q' & _ & Hpop' & _); [by rewrite Eh|].
      congruence.
  - unfold Len. intros Hl.
    destruct (PopMax_Inv q Hinv) as (r & q' & _ & Hpop & _);
      [intros Eh; rewrite Eh in Hl; simpl in Hl; lia|].
    by exists (job r), q'.
  - intros j q' Hpop.
    destruct (PopMax_max q j q' Hinv Hpop) as (r & Hr & Hp & Hmax).
    exists r. split; [done|]. split; [done|]. split; [|done].
    unfold Len. rewrite Hp. done.
  - intros j Hk. destruct (Push_absent_perm q j Hk) as [Hp _]. split.
    + rewrite Hp. apply elem_of_app. right. by apply list_elem_of_singleton.
    + apply Hinv.
  - intros ja jb. apply tie_two.
Qed.

(** Claim C3: [Push] is idempotent by key. From every reachable queue, if an
    entry with the job's key is present, the push keeps [Len], puts the new job
    (hence its score) in place of that entry with the entry's insertion number,
    and re-heapifies; pushing further jobs with the same key never changes
    [Len]. If the key is absent, the job is added as a new entry and [Len]
    grows by exactly one. *)
Theorem Push_spec (ops : list Op) (j : Job) :
  let q := run ops in
  ((exists e, e ∈ heap q /\ ekey e = key j) ->
     Len (Push q j) = Len q /\
     (exists i old, heap q !! i = Some old /\ ekey old = key j /\
        heap (Push q j) ≡ₚ <[i := mkEntry j (seq old)]> (heap q)) /\
     Inv (Push q j) /\
     forall js, Forall (fun j' => key j' = key j) js ->
       Len (fold_left Push js (Push q j)) = Len q) /\
  ((forall e, e ∈ heap q -> ekey e <> key j) ->
     Len (Push q j) = S (Len q) /\
     heap (Push q j) ≡ₚ heap q ++ [mkEntry j (nextSeq q)] /\
     Inv (Push q j) /\
     forall js, Forall (fun j' => key j' = key j) js ->
       Len (fold_left Push js (Push q j)) = S (Len q)).
Proof.
  intros q. pose proof (Inv_run ops) as Hinv. fold q in Hinv.
  pose proof Hinv as (_ & Hidx & _).
  assert (Hnew : forall js, Forall (fun j' => key j' = key j) js ->
            Len (fold_left Push js (Push q j)) = Len (Push q j)).
  { intros js Hall. apply (Push_repeat _ j); [by apply Push_Inv| |done].
    destruct (index q !! key j) as [i|] eqn:Hk.
    - destruct Hidx as [_ H2]. destruct (H2 _ _ Hk) as (old & Hold & Hkey).
      destruct (Push_present_len q j Hinv) as (_ & _ & ?); [|done].
      exists old. split; [by eapply list_elem_of_lookup_2|done].
    - destruct (Push_absent_perm q j Hk) as [Hp _].
      exists (mkEntry j (nextSeq q)). split; [|done].
      rewrite Hp. apply elem_of_app. right. by apply list_elem_of_singleton. }
  split.
  - intros Hpres.
    destruct (Push_present_len q j Hinv Hpres) as (Hl & Hinv' & _).
    destruct (present_index q (key j) Hidx Hpres) as (i & old & Hi & Hold & Hkey).
    split; [done|]. split; [|split; [done|]].
    + exists i, old. split; [done|]. split; [done|].
      apply (Push_present_perm q j i old Hidx Hold Hkey).
    + intros js Hall. rewrite Hnew by done. done.
  - intros Habs. pose proof (absent_index q (key j) Hidx Habs) as Hk.
    destruct (Push_absent_perm q j Hk) as [Hp _].
    assert (Hl : Len (Push q j) = S (Len q)).
    { unfold Len. rewrite Hp, length_app. simpl. lia. }
    split; [done|]. split; [done|]. split; [by apply Push_Inv|].
    intros js Hall. by rewrite Hnew.
Qed.

End PQFacts.

Module RefresherFacts.
Import TimeWindow Job PQ PQSpec PQFacts Refresher RefresherSpec.

(** *** Auxiliary facts *)

Lemma Status_eqb_true (a b : Status) : Status_eqb a b = true <-> a = b.
Proof. destruct a, b; simpl; split; congruence. Qed.

Lemma filter_length_le {A} (f : A -> bool) (l : list A) :
  (length (List.filter f l) <= length l)%nat.
Proof. induction l as [|a l IH]; simpl; [lia|]. destruct (f a); simpl; lia. Qed.

Lemma filter_none {A} (f : A -> bool) (l : list A) :
  (forall x, x ∈ l -> f x = false) -> List.filter f l = [].
Proof.
  induction l as [|a l IH]; intros Hf; simpl; [done|].
  rewrite (Hf a) by constructor. apply IH. intros x Hx. apply Hf. by constructor.
Qed.

Lemma removeKey_length (k : string) (l : list Job) :
  (length (removeKey k l) <= length l)%nat.
Proof. induction l as [|a l IH]; simpl; [lia|]. destruct (String.eqb (key a) k); simpl; lia. Qed.

Lemma elem_of_insert_sub {A} (l : list A) (i : nat) (x y : A) :
  y ∈ <[i:=x]> l -> y ∈ l \/ y = x.
Proof.
  intros H. apply list_elem_of_lookup in H as [k Hk].
  destruct (decide (k = i)) as [->|Hne].
  - pose proof (lookup_lt_Some _ _ _ Hk) as Hl. rewrite length_insert in Hl.
    rewrite list_lookup_insert_eq in Hk by done. injection Hk. auto.
  - rewrite list_lookup_insert_ne in Hk by done. left. by eapply list_elem_of_lookup_2.
Qed.

(** *** The queue operations keep the queue's entries *)

Lemma Push_sub (q : Queue) (j : Job) :
  Inv q -> forall e, e ∈ heap (Push q j) -> e ∈ heap q \/ job e = j.
Proof.
  intros Hinv e He. pose proof Hinv as (_ & Hidx & _). pose proof Hidx as [_ H2].
  destruct (index q !! key j) as [i|] eqn:Hk.
  - destruct (H2 _ _ Hk) as (old & Hold & Hkey).
    destruct (Push_present_perm q j i old Hidx Hold Hkey) as [Hp _].
    rewrite Hp in He. apply elem_of_insert_sub in He as [He| ->]; auto.
  - destruct (Push_absent_perm q j Hk) as [Hp _].
    rewrite Hp in He. apply elem_of_app in He as [He|He]; [auto|].
    apply list_elem_of_singleton in He as ->. auto.
Qed.

Lemma Remove_sub (q : Queue) (k : string) :
  Inv q -> Inv (snd (Remove q k)) /\ forall e, e ∈ heap (snd (Remove q k)) -> e ∈ heap q.
Proof.
  intros Hinv. pose proof Hinv as (_ & [_ H2] & _).
  destruct (index q !! k) as [i|] eqn:Hk.
  - destruct (H2 _ _ Hk) as (e & He & _).
    destruct (Remove_found q k i e Hinv Hk He) as (q' & -> & Hp & _ & Hq').
    split; [done|]. intros x Hx. rewrite Hp. apply elem_of_app. by left.
  - rewrite Remove_absent by done. done.
Qed.

Lemma PopMax_sub (q : Queue) :
  Inv q -> Inv (snd (PopMax q)) /\ forall e, e ∈ heap (snd (PopMax q)) -> e ∈ heap q.
Proof.
  intros Hinv. destruct (heap q) as [|x t] eqn:Eh.
  - rewrite PopMax_empty by done. simpl. rewrite Eh. done.
  - destruct (PopMax_Inv q Hinv) as (r & q' & _ & -> & Hp & _ & Hq'); [by rewrite Eh|].
    split; [done|]. intros e He. rewrite <- Eh, Hp. apply elem_of_app. by left.
Qed.

Lemma Push_QNR (q : Queue) (j : Job) :
  Inv q -> QueueNotRunning q -> status j <> Running ->
  Inv (Push q j) /\ QueueNotRunning (Push q j).
Proof.
  intros Hinv Hq Hj. split; [by apply Push_Inv|].
  intros e He. destruct (Push_sub q j Hinv e He) as [He'| ->]; auto.
Qed.

(** *** Each step of the control loop keeps the invariant *)

Lemma jobOf_status (cfg : Config) (st : Refresher) (c : Candidate) :
  status (jobOf cfg st c) = Queued \/ status (jobOf cfg st c) = Quarantined.
Proof. unfold jobOf. repeat case_match; simpl; auto. Qed.

Lemma fold_push_QNR (cfg : Config) (st : Refresher) (cands : list Candidate) (q : Queue) :
  Inv q -> QueueNotRunning q ->
  let q' := fold_left (fun q c => let j := jobOf cfg st c in
                                  if isRunningKey st (key j) then q else Push q j) cands q in
  Inv q' /\ QueueNotRunning q'.
Proof.
  revert q. induction cands as [|c cs IH]; intros q Hinv Hq; simpl; [done|].
  apply IH; case_match; try done; apply Push_QNR; try done;
    destruct (jobOf_status cfg st c) as [-> | ->]; discriminate.
Qed.

Lemma fold_remove_QNR (ks : list string) (q : Queue) :
  Inv q -> QueueNotRunning q ->
  let q' := fold_left (fun q k => snd (Remove q k)) ks q in
  Inv q' /\ QueueNotRunning q'.
Proof.
  revert q. induction ks as [|k ks IH]; intros q Hinv Hq; simpl; [done|].
  destruct (Remove_sub q k Hinv) as [Hi Hs]. apply IH; [done|].
  intros e He. apply Hq. by apply Hs.
Qed.

Lemma refresh_RInv (cfg : Config) (cands : list Candidate) (st : Refresher) :
  RInv cfg st -> RInv cfg (refresh cfg cands st) /\ running (refresh cfg cands st) = running st.
Proof.
  intros (Hinv & Hq & Hl). unfold refresh.
  destruct (fold_push_QNR cfg st cands (queue st) Hinv Hq) as [H1 H2].
  split; [|done].
  destruct (fold_remove_QNR
    (List.filter (fun k => negb (existsb (String.eqb k)
       (map (fun c => key (jobOf cfg st c)) cands)))
       (map ekey (heap (fold_left (fun q c => let j := jobOf cfg st c in
                   if isRunningKey st (key j) then q else Push q j) cands (queue st)))))
    _ H1 H2) as [H3 H4].
  split; [exact H3|]. split; [exact H4|exact Hl].
Qed.

Lemma dispatchLoop_RInv (fuel : nat) (cfg : Config) (now : Z) (st : Refresher) :
  RInv cfg st -> RInv cfg (dispatchLoop fuel cfg now st).
Proof.
  revert st. induction fuel as [|fuel IH]; intros st (Hinv & Hq & Hl); simpl; [by split|].
  destruct (Contains (window cfg) (timeOfDay now) && (length (running st) <? concurrencyLimit cfg)%nat)
    eqn:Hc; [|by split].
  apply andb_true_iff in Hc as [_ Hlt]. apply Nat.ltb_lt in Hlt.
  destruct (PopMax_sub (queue st) Hinv) as [Hi' Hs'].
  destruct (PopMax (queue st)) as [[j|] q'] eqn:Hp; [|by split].
  simpl in Hi', Hs'.
  assert (Hq' : QueueNotRunning q') by (intros e He; apply Hq; by apply Hs').
  case_match; apply IH; (split; [done|split; [done|simpl; lia]]).
Qed.

Lemma complete_RInv (cfg : Config) (now : Z) (k : string) (success : bool) (st : Refresher) :
  RInv cfg st -> RInv cfg (complete cfg now k success st).
Proof.
  intros (Hinv & Hq & Hl). unfold complete.
  pose proof (removeKey_length k (running st)).
  destruct (find (fun j => String.eqb (key j) k) (running st)) as [j|] eqn:Hf; [|by split].
  destruct success; [split; [done|split; [done|simpl; lia]]|].
  cbv zeta. destruct (Status_eqb (status (onFailure cfg now j)) Pending) eqn:Hpend.
  - apply Status_eqb_true in Hpend.
    destruct (Push_QNR (queue st) (onFailure cfg now j) Hinv Hq) as [Hi' Hq'];
      [by rewrite Hpend|].
    split; [done|split; [done|simpl; lia]].
  - split; [done|split; [done|simpl; lia]].
Qed.

Lemma step_RInv (cfg : Config) (st : Refresher) (ev : Event) :
  RInv cfg st -> RInv cfg (step cfg st ev).
Proof.
  intros H. destruct ev as [now cands|now k success]; simpl.
  - unfold tick. destruct (refresh_RInv cfg cands st H) as [H1 _].
    case_match; [by apply dispatchLoop_RInv|done].
  - by apply complete_RInv.
Qed.

Lemma runEvents_RInv (cfg : Config) (evs : list Event) : RInv cfg (runEvents cfg evs).
Proof.
  unfold runEvents.
  assert (H0 : RInv cfg init).
  { split; [apply Inv_empty|split; [|simpl; lia]]. intros e He. by apply not_elem_of_nil in He. }
  revert H0. generalize init. induction evs as [|ev evs IH]; intros st Hst; simpl; [done|].
  apply IH. by apply step_RInv.
Qed.

(** *** Failures, quarantine and dispatch *)

Lemma failures_app (cfg : Config) (nows : list Z) (t : Z) (j : Job) :
  failures cfg (nows ++ [t]) j = onFailure cfg t (failures cfg nows j).
Proof. unfold failures. by rewrite fold_left_app. Qed.

Lemma failures_retryCount (cfg : Config) (nows : list Z) (j : Job) :
  retryCount (failures cfg nows j) = (retryCount j + length nows)%nat.
Proof.
  unfold failures. revert j. induction nows as [|t ts IH]; intros j; simpl; [lia|].
  rewrite IH. unfold onFailure. case_match; simpl; lia.
Qed.

Lemma onFailure_cases (cfg : Config) (now : Z) (j : Job) :
  retryCount (onFailure cfg now j) = S (retryCount j) /\
  ((S (retryCount j) < maxRetries cfg)%nat -> status (onFailure cfg now j) = Pending) /\
  ((maxRetries cfg <= S (retryCount j))%nat ->
     status (onFailure cfg now j) = Quarantined /\
     quarantineUntil (onFailure cfg now j) = now + quarantineDuration cfg).
Proof.
  unfold onFailure. destruct (S (retryCount j) <? maxRetries cfg)%nat eqn:H.
  - apply Nat.ltb_lt in H. simpl. split; [done|]. split; [done|lia].
  - apply Nat.ltb_ge in H. simpl. split; [done|]. split; [lia|done].
Qed.

Lemma dispatchLoop_eligible (fuel : nat) (cfg : Config) (now : Z) (st : Refresher) :
  forall x, x ∈ running (dispatchLoop fuel cfg now st) ->
    x ∈ running st \/
    exists y, x = setStatus Running y /\
              IsEligible y now (window cfg) (minReanalyzeInterval cfg) = true.
Proof.
  revert st. induction fuel as [|fuel IH]; intros st x Hx; simpl in Hx; [by left|].
  destruct (Contains (window cfg) (timeOfDay now) && (length (running st) <? concurrencyLimit cfg)%nat);
    [|by left].
  destruct (PopMax (queue st)) as [[j|] q'] eqn:Hp; [|by left].
  destruct (IsEligible j now (window cfg) (minReanalyzeInterval cfg)) eqn:He.
  - destruct (IH _ x Hx) as [Hin|Hy]; [|by right].
    simpl in Hin. apply elem_of_cons in Hin as [->|Hin]; [right; by exists j|by left].
  - destruct (IH _ x Hx) as [Hin|Hy]; [by left|by right].
Qed.

Lemma quarantined_not_eligible (j : Job) (now : Z) (w : TimeWindow) (m : Z) :
  status j = Quarantined -> now < quarantineUntil j -> IsEligible j now w m = false.
Proof.
  intros Hs Hn. unfold IsEligible. rewrite Hs. simpl.
  replace (now <? quarantineUntil j) with true by (symmetry; by apply Z.ltb_lt).
  by repeat case_match.
Qed.

Lemma key_jobOf (cfg : Config) (st : Refresher) (c : Candidate) :
  key (jobOf cfg st c) = key (mkJob (cSchema c) (cTable c) (cPartition c) (cSignals c)
                               (ComputePriorityScore (cSignals c) (weights cfg)) Queued 0 0).
Proof. unfold jobOf. by case_match. Qed.

(** Claim C4: in every state reached from the initial state by any sequence of
    ticks and completions, at most [concurrencyLimit] jobs are in flight, and
    the number of jobs with status [Running] (in flight or in the queue) is at
    most [concurrencyLimit]. *)
Theorem concurrency_bound (cfg : Config) (evs : list Event) :
  let st := runEvents cfg evs in
  (length (running st) <= concurrencyLimit cfg)%nat /\
  (runningCount st <= concurrencyLimit cfg)%nat.
Proof.
  intros st. destruct (runEvents_RInv cfg evs) as (_ & Hq & Hl). fold st in Hq, Hl.
  split; [done|]. unfold runningCount.
  rewrite (filter_none _ (heap (queue st))).
  - pose proof (filter_length_le (fun j => Status_eqb (status j) Running) (running st)).
    simpl. lia.
  - intros e He. destruct (Status_eqb (status (job e)) Running) eqn:Hs; [|done].
    apply Status_eqb_true in Hs. by destruct (Hq e He).
Qed.

(** Counterexample to claim C5: with [maxRetries = 2] and an executor that
    always fails, the job is dispatched at the first tick, fails, is dispatched
    again at the second tick, fails and is quarantined with retry count 2; the
    third tick, before the cool-down expires, dispatches nothing. The job runs
    twice, that is, it is retried once after its first failure, not twice. *)
Lemma retry_count_counterexample :
  let cfg := mkConfig 2 (mkWindow 0 0) 0 2 1000 (mkWeights 1 1 1) in
  let c := mkCandidate "s" "t" "p" (mkSignals 100 10 1 5000 true) in
  let k := "s.t.p"%string in
  let evs := [Tick 0 [c]; Complete 1 k false; Tick 2 [c]; Complete 3 k false; Tick 4 [c]] in
  map (fun n => map status (running (runEvents cfg (take n evs)))) [1; 2; 3; 4; 5]%nat
    = [[Running]; []; [Running]; []; []] /\
  ((fun j => (status j, retryCount j)) <$> known (runEvents cfg evs) !! k)
    = Some (Quarantined, 2%nat).
Proof. split; vm_compute; reflexivity. Qed.

(** Claim C5, as amended: for a job whose executions always fail, starting from
    retry count 0 with [maxRetries >= 1], every failure increments the retry
    count; after the k-th failure with k < [maxRetries] the status is [Pending],
    and completion pushes the job back into the queue exactly when its new
    status is [Pending]; at the [maxRetries]-th failure, at time [t], the status
    becomes [Quarantined] until [t + quarantineDuration], before which
    [IsEligible] is false, and the dispatch loop only starts eligible jobs.
    The job thus runs [maxRetries] times, i.e. it is retried [maxRetries - 1]
    times. A candidate rebuilt from a recorded job keeps its retry count and its
    quarantine. *)
Theorem retry_then_quarantine (cfg : Config) (j : Job) (nows : list Z) (t now : Z)
    (HM : (1 <= maxRetries cfg)%nat) (H0 : retryCount j = 0%nat) :
  let jf := failures cfg (nows ++ [t]) j in
  retryCount jf = S (length nows) /\
  ((S (length nows) < maxRetries cfg)%nat -> status jf = Pending) /\
  (S (length nows) = maxRetries cfg ->
     status jf = Quarantined /\ quarantineUntil jf = t + quarantineDuration cfg /\
     (now < t + quarantineDuration cfg ->
        IsEligible jf now (window cfg) (minReanalyzeInterval cfg) = false)) /\
  (forall st k j0, find (fun x => String.eqb (key x) k) (running st) = Some j0 ->
     known (complete cfg now k false st) !! k = Some (onFailure cfg now j0) /\
     queue (complete cfg now k false st) =
       (if Status_eqb (status (onFailure cfg now j0)) Pending
        then Push (queue st) (onFailure cfg now j0) else queue st)) /\
  (forall fuel st x, x ∈ running (dispatchLoop fuel cfg now st) ->
     x ∈ running st \/
     exists y, x = setStatus Running y /\
               IsEligible y now (window cfg) (minReanalyzeInterval cfg) = true) /\
  (forall st c prev, known st !! key (jobOf cfg st c) = Some prev ->
     retryCount (jobOf cfg st c) = retryCount prev /\
     (status prev = Quarantined ->
        status (jobOf cfg st c) = Quarantined /\
        quarantineUntil (jobOf cfg st c) = quarantineUntil prev)).
Proof.
  intros jf.
  assert (Hr : retryCount (failures cfg nows j) = length nows)
    by (rewrite failures_retryCount; lia).
  destruct (onFailure_cases cfg t (failures cfg nows j)) as (Hc & Hp & Hq).
  unfold jf. rewrite failures_app. rewrite Hr in Hc, Hp, Hq.
  split; [done|]. split; [done|]. split.
  { intros Heq. destruct Hq as [Hs Hu]; [lia|].
    split; [done|]. split; [done|]. intros Hn.
    apply quarantined_not_eligible; [done|]. by rewrite Hu. }
  split.
  { intros st k j0 Hf. unfold complete. rewrite Hf. cbv zeta.
    case_match; simpl; (split; [by rewrite lookup_insert_eq|done]). }
  split; [intros fuel st x; apply dispatchLoop_eligible|].
  intros st c prev Hk. rewrite key_jobOf in Hk. unfold jobOf.
  rewrite Hk. simpl. split; [done|].
  intros Hs. rewrite Hs. simpl. done.
Qed.

Lemma retry_then_quarantine_witness :
  let cfg := mkConfig 2 (mkWindow 0 0) 0 2 1000 (mkWeights 1 1 1) in
  let j := mkJob "s" "t" "p" (mkSignals 100 10 1 5000 true) 0 Queued 0 0 in
  (1 <= maxRetries cfg)%nat /\ retryCount j = 0%nat /\
  status (failures cfg [1] j) = Pending /\
  status (failures cfg [1; 3] j) = Quarantined.
Proof.
  intros cfg j. split; [simpl; lia|]. split; [reflexivity|]. split.
  - destruct (retry_then_quarantine cfg j [] 1 2 ltac:(simpl; lia) eq_refl)
      as (_ & Hp & _). apply Hp. simpl. lia.
  - destruct (retry_then_quarantine cfg j [1] 3 4 ltac:(simpl; lia) eq_refl)
      as (_ & _ & Hq & _). apply Hq. reflexivity.
Defined.

End RefresherFacts.

(** ** Further properties of [util.go] *)

Module UtilExtraFacts.
Import Util.

Lemma Trace_idem (r : option error) : Trace (Trace r) = Trace r.
Proof. destruct r as [e|]; [destruct e|]; reflexivity. Qed.

Lemma Trace_Some (e : error) : Trace (Some e) <> None.
Proof. discriminate. Qed.

(** X1: [WrapTxn], when [BEGIN PESSIMISTIC] fails, returns that error as it
    is, without a stack, and neither calls [f] nor ends a transaction. *)
Lemma WrapTxn_begin_error (env : Env) (sctx : nat) (e : error)
    (Hb : execRows env "BEGIN PESSIMISTIC" = Some e) :
  WrapTxn env sctx = ([EvExec "BEGIN PESSIMISTIC"], Ret (Some e)).
Proof. unfold WrapTxn, ExecRows, bind, emit, ret. simpl. rewrite Hb. reflexivity. Qed.

Lemma WrapTxn_begin_error_witness :
  let env := mkEnv (inl 0%nat) (Ret None) (Ret None)
               (fun sql => if String.eqb sql "BEGIN PESSIMISTIC"
                           then Some (Err "lock wait timeout") else None) in
  WrapTxn env 0 = ([EvExec "BEGIN PESSIMISTIC"], Ret (Some (Err "lock wait timeout"))).
Proof. intros env. apply WrapTxn_begin_error. reflexivity. Defined.

(** X2: [WrapTxn] with [f] returning: [f] runs after [BEGIN PESSIMISTIC],
    then exactly one of [COMMIT] (when [f] returned [nil]) or [rollback]
    (otherwise). The result is the traced error of [COMMIT], or the traced
    error of [f]; the error of [rollback] is never returned. *)
Lemma WrapTxn_finishes (env : Env) (sctx : nat) (r : option error)
    (Hb : execRows env "BEGIN PESSIMISTIC" = None) (Hf : callF env = Ret r) :
  WrapTxn env sctx =
    ([EvExec "BEGIN PESSIMISTIC"; EvCallF;
      EvExec (if r then "rollback" else "COMMIT")],
     Ret (match r with
          | None => Trace (execRows env "COMMIT")
          | Some e => Trace (Some e)
          end)).
Proof.
  unfold WrapTxn, ExecRows, f, with_defer, finishTransaction, bind, emit, lift, ret.
  simpl. rewrite Hb, Hf. destruct r; reflexivity.
Qed.

Lemma WrapTxn_finishes_witness :
  let env := mkEnv (inl 0%nat) (Ret None) (Ret None)
               (fun sql => if String.eqb sql "COMMIT"
                           then Some (Err "write conflict") else None) in
  WrapTxn env 0 =
    ([EvExec "BEGIN PESSIMISTIC"; EvCallF; EvExec "COMMIT"],
     Ret (Some (WithStack (Err "write conflict")))).
Proof. intros env. apply (WrapTxn_finishes env 0 None); reflexivity. Defined.

(** X3: [CallWithSCtx] always returns: a panic never leaves it. When [f] was
    called and panicked, it returns [nil] and puts the session back into
    the pool once, without destroying it. *)
Lemma CallWithSCtx_recovers (env : Env) (flags : list Z) :
  exists t r, CallWithSCtx env flags = (t, Ret r) /\
    (callF env = Panic -> In EvCallF t ->
     r = None /\ exists se, poolGet env = inl se /\
       puts se t = 1%nat /\ destroys se t = 0%nat).
Proof.
  unfold CallWithSCtx, recover_, with_defer, WrapTxn, finishTransaction,
    UpdateSCtxVarsForStats, ExecRows, f, bind, emit, lift, ret.
  destruct (poolGet env) as [se|e]; simpl.
  - destruct (updateVars env) as [[u|]|]; simpl.
    + eexists _, _; split; [reflexivity|]. intros _ Hin. simpl in Hin.
      destruct Hin as [?|[?|[?|[]]]]; discriminate.
    + destruct (wrapTxnFlag flags); simpl.
      * destruct (execRows env "BEGIN PESSIMISTIC") as [b|]; simpl.
        -- eexists _, _; split; [reflexivity|]. intros _ Hin. simpl in Hin.
           destruct Hin as [?|[?|[?|[?|[]]]]]; discriminate.
        -- destruct (callF env) as [[r|]|] eqn:Hf; simpl.
           ++ eexists _, _; split; [reflexivity|]. intros; discriminate.
           ++ rewrite Trace_idem.
              destruct (Trace (execRows env "COMMIT")); simpl;
                (eexists _, _; split; [reflexivity|]); intros; discriminate.
           ++ eexists _, _; split; [reflexivity|]. intros _ _.
              split; [done|]. exists se. unfold puts, destroys. simpl.
              rewrite Nat.eqb_refl. done.
      * destruct (callF env) as [[r|]|] eqn:Hf; simpl.
        -- eexists _, _; split; [reflexivity|]. intros; discriminate.
        -- eexists _, _; split; [reflexivity|]. intros; discriminate.
        -- eexists _, _; split; [reflexivity|]. intros _ _.
           split; [done|]. exists se. unfold puts, destroys. simpl.
           rewrite Nat.eqb_refl. done.
    + eexists _, _; split; [reflexivity|]. intros _ Hin. simpl in Hin.
      destruct Hin as [?|[?|[?|[]]]]; discriminate.
  - eexists _, _; split; [reflexivity|]. intros _ Hin. simpl in Hin.
    destruct Hin as [?|[]]; discriminate.
Qed.

(** X4: [CallWithSCtx], when [pool.Get] fails, returns that error traced and
    does nothing else: no refresh of the variables, no call of [f], no
    release of a session. *)
Lemma CallWithSCtx_get_error (env : Env) (flags : list Z) (e : error)
    (Hg : poolGet env = inr e) :
  CallWithSCtx env flags = ([EvGet], Ret (Trace (Some e))).
Proof. unfold CallWithSCtx, recover_, bind, emit, ret. rewrite Hg. reflexivity. Qed.

Lemma CallWithSCtx_get_error_witness :
  let env := mkEnv (inr (Err "pool closed")) (Ret None) (Ret None) (fun _ => None) in
  CallWithSCtx env [0] = ([EvGet], Ret (Some (WithStack (Err "pool closed")))).
Proof. intros env. apply (CallWithSCtx_get_error env [0] (Err "pool closed")). reflexivity. Defined.

(** X5: [CallWithSCtx], when [UpdateSCtxVarsForStats] returns an error,
    does not call [f], destroys the session and returns that error
    traced. *)
Lemma CallWithSCtx_update_error (env : Env) (flags : list Z) (se : nat) (e : error)
    (Hg : poolGet env = inl se) (Hu : updateVars env = Ret (Some e)) :
  CallWithSCtx env flags =
    ([EvGet; EvUpdateVars; EvDestroy se], Ret (Trace (Some e))).
Proof.
  unfold CallWithSCtx, recover_, with_defer, UpdateSCtxVarsForStats, bind, emit, lift, ret.
  rewrite Hg. simpl. rewrite Hu. simpl. destruct e; reflexivity.
Qed.

Lemma CallWithSCtx_update_error_witness :
  let env := mkEnv (inl 7%nat) (Ret (Some (Err "unknown system variable")))
               (Ret None) (fun _ => None) in
  CallWithSCtx env [] =
    ([EvGet; EvUpdateVars; EvDestroy 7],
     Ret (Some (WithStack (Err "unknown system variable")))).
Proof.
  intros env. apply (CallWithSCtx_update_error env [] 7 (Err "unknown system variable"));
    reflexivity.
Defined.

(** X6: [CallWithSCtx] without [FlagWrapTxn] among its flags calls [f]
    directly after the refresh of the variables, runs no SQL statement,
    returns the traced error of [f], and puts the session back when [f]
    returned [nil], destroying it otherwise. *)
Lemma CallWithSCtx_direct (env : Env) (flags : list Z) (se : nat) (r : option error)
    (Hg : poolGet env = inl se) (Hu : updateVars env = Ret None)
    (Hw : wrapTxnFlag flags = false) (Hf : callF env = Ret r) :
  CallWithSCtx env flags =
    ([EvGet; EvUpdateVars; EvCallF; if r then EvDestroy se else EvPut se],
     Ret (Trace r)).
Proof.
  unfold CallWithSCtx, recover_, with_defer, UpdateSCtxVarsForStats, f, bind, emit, lift, ret.
  rewrite Hg. simpl. rewrite Hu. simpl. rewrite Hw, Hf. simpl.
  destruct r as [e|]; [destruct e|]; reflexivity.
Qed.

Lemma CallWithSCtx_direct_witness :
  let env := mkEnv (inl 3%nat) (Ret None) (Ret (Some (Err "table not found")))
               (fun _ => None) in
  CallWithSCtx env [1; 2] =
    ([EvGet; EvUpdateVars; EvCallF; EvDestroy 3],
     Ret (Some (WithStack (Err "table not found")))).
Proof.
  intros env. apply (CallWithSCtx_direct env [1; 2] 3 (Some (Err "table not found")));
    reflexivity.
Defined.

(** X7: [CallWithSCtx] with [FlagWrapTxn] among its flags runs [f] between
    [BEGIN PESSIMISTIC] and [COMMIT] or [rollback]; a failing [COMMIT]
    after a successful [f] is returned and makes it destroy the session. *)
Lemma CallWithSCtx_in_txn (env : Env) (flags : list Z) (se : nat) (r : option error)
    (Hg : poolGet env = inl se) (Hu : updateVars env = Ret None)
    (Hw : wrapTxnFlag flags = true)
    (Hb : execRows env "BEGIN PESSIMISTIC" = None) (Hf : callF env = Ret r) :
  let res := match r with
             | None => Trace (execRows env "COMMIT")
             | Some e => Trace (Some e)
             end in
  CallWithSCtx env flags =
    ([EvGet; EvUpdateVars; EvExec "BEGIN PESSIMISTIC"; EvCallF;
      EvExec (if r then "rollback" else "COMMIT");
      if res then EvDestroy se else EvPut se],
     Ret res).
Proof.
  unfold CallWithSCtx, recover_, with_defer, UpdateSCtxVarsForStats, WrapTxn,
    finishTransaction, ExecRows, f, bind, emit, lift, ret.
  rewrite Hg. simpl. rewrite Hu. simpl. rewrite Hw. simpl. rewrite Hb, Hf. simpl.
  destruct r as [e|]; simpl.
  - destruct e; reflexivity.
  - rewrite !Trace_idem. destruct (Trace (execRows env "COMMIT")); reflexivity.
Qed.

Lemma CallWithSCtx_in_txn_witness :
  let env := mkEnv (inl 5%nat) (Ret None) (Ret None)
               (fun sql => if String.eqb sql "COMMIT"
                           then Some (Err "write conflict") else None) in
  CallWithSCtx env [1; 0] =
    ([EvGet; EvUpdateVars; EvExec "BEGIN PESSIMISTIC"; EvCallF;
      EvExec "COMMIT"; EvDestroy 5],
     Ret (Some (WithStack (Err "write conflict")))).
Proof.
  intros env. apply (CallWithSCtx_in_txn env [1; 0] 5 None); reflexivity.
Defined.

(** X8: [IsSpecialGlobalIndex] on a global index stops at the first column
    that is special or out of range: when every earlier column is in range
    and not special, an out-of-range offset panics, and a special column
    gives [true], whatever the later columns are. *)
Lemma IsSpecialGlobalIndex_first_decisive (idx : IndexInfo) (tbl : TableInfo)
    (l1 : list IndexColumn) (col : IndexColumn) (l2 : list IndexColumn)
    (Hg : Global idx = true) (Hc : idxColumns idx = l1 ++ col :: l2)
    (Hl1 : Forall (fun c => exists ci, columnAt tbl (Offset c) = Some ci /\
              IsVirtualGenerated ci = false /\ Length c = UnspecifiedLength) l1) :
  (~ (0 <= Offset col < Z.of_nat (length (tblColumns tbl))) ->
   IsSpecialGlobalIndex idx tbl = None) /\
  (SpecialColumn tbl col -> IsSpecialGlobalIndex idx tbl = Some true).
Proof.
  unfold IsSpecialGlobalIndex. rewrite Hg, Hc. simpl.
  assert (Hskip : specialColumnLoop tbl (l1 ++ col :: l2) =
                  specialColumnLoop tbl (col :: l2)).
  { clear Hc. induction Hl1 as [|c l [ci [Hci [Hv Hl]]] _ IH]; [done|].
    simpl. rewrite Hci, Hv, Hl. simpl. exact IH. }
  rewrite Hskip. simpl. split.
  - intros Hout. unfold columnAt.
    destruct (Offset col <? 0) eqn:Hn; [done|].
    apply Z.ltb_ge in Hn. rewrite lookup_ge_None_2; [done|]. lia.
  - intros [ci [Hci Hs]]. rewrite Hci.
    destruct Hs as [Hs|Hs]; [rewrite Hs; done|].
    apply Z.eqb_neq in Hs. rewrite Hs, orb_true_r. reflexivity.
Qed.

Lemma IsSpecialGlobalIndex_first_decisive_witness :
  let plain := mkColumnInfo "a" "" false in
  let virt := mkColumnInfo "v" "a + 1" false in
  let tbl := mkTableInfo [plain; virt] in
  let c0 := mkIndexColumn "a" 0 UnspecifiedLength in
  let c1 := mkIndexColumn "v" 1 UnspecifiedLength in
  let bad := mkIndexColumn "x" 9 UnspecifiedLength in
  let idx := mkIndexInfo "g" [c0; c1; bad] true in
  IsSpecialGlobalIndex idx tbl = Some true.
Proof.
  intros plain virt tbl c0 c1 bad idx.
  apply (IsSpecialGlobalIndex_first_decisive idx tbl [c0] c1 [bad]);
    [reflexivity | reflexivity
    | repeat constructor; exists plain; split; [reflexivity | split; reflexivity]
    | exists virt; split; [reflexivity | left; reflexivity]].
Defined.

End UtilExtraFacts.

Module StatsVarsFacts.
Import Util StatsVars.

Section WithGlobals.
Variable GetGlobalSysVar : SysVar -> string + error.
Variable TiDBOptOn : string -> bool.
Variable ParseInt : string -> Z + error.
Variable ParseAnalyzeSkipColumnTypes : string -> list string.

Local Abbreviation Update :=
  (UpdateSCtxVarsForStats GetGlobalSysVar TiDBOptOn ParseInt ParseAnalyzeSkipColumnTypes).

Lemma Update_success (sv sv' : SessionVars)
    (H : Update sv = (sv', inl tt)) :
  exists a b c v h p s k m g w,
    GetGlobalSysVar TiDBEnableAsyncMergeGlobalStats = inl a /\
    GetGlobalSysVar TiDBAnalyzePartitionConcurrency = inl b /\ ParseInt b = inl c /\
    GetGlobalSysVar TiDBAnalyzeVersion = inl v /\ ParseInt v = inl h /\
    GetGlobalSysVar TiDBEnableHistoricalStats = inl p /\
    GetGlobalSysVar TiDBPartitionPruneMode = inl s /\
    GetGlobalSysVar TiDBEnableAnalyzeSnapshot = inl k /\
    GetGlobalSysVar TiDBAnalyzeSkipColumnTypes = inl m /\
    GetGlobalSysVar TiDBSkipMissingPartitionStats = inl g /\
    (exists ms, GetGlobalSysVar TiDBMergePartitionStatsConcurrency = inl ms /\
                ParseInt ms = inl w) /\
    sv' = mkSessionVars (TiDBOptOn a) c h (TiDBOptOn p) s (TiDBOptOn k)
            (ParseAnalyzeSkipColumnTypes m) (TiDBOptOn g) w.
Proof.
  unfold UpdateSCtxVarsForStats, bindV, check, modify, retV in H.
  repeat (case_match; simplify_eq); [].
  do 11 eexists. repeat (split; [first [reflexivity | eassumption]|]).
  split; [eexists; split; [reflexivity | eassumption]|]. reflexivity.
Qed.

(** X9: when [UpdateSCtxVarsForStats] returns [nil], every one of the nine
    session variables it writes holds the value of its global variable,
    converted by [TiDBOptOn], [ParseInt] or [ParseAnalyzeSkipColumnTypes];
    none keeps the value it had before the call. *)
Lemma UpdateSCtxVarsForStats_sets_all (sv sv' : SessionVars)
    (H : Update sv = (sv', inl tt)) :
  (exists a, GetGlobalSysVar TiDBEnableAsyncMergeGlobalStats = inl a /\
             EnableAsyncMergeGlobalStats sv' = TiDBOptOn a) /\
  (exists b, GetGlobalSysVar TiDBAnalyzePartitionConcurrency = inl b /\
             ParseInt b = inl (AnalyzePartitionConcurrency sv')) /\
  (exists v, GetGlobalSysVar TiDBAnalyzeVersion = inl v /\
             ParseInt v = inl (AnalyzeVersion sv')) /\
  (exists p, GetGlobalSysVar TiDBEnableHistoricalStats = inl p /\
             EnableHistoricalStats sv' = TiDBOptOn p) /\
  GetGlobalSysVar TiDBPartitionPruneMode = inl (PartitionPruneMode sv') /\
  (exists k, GetGlobalSysVar TiDBEnableAnalyzeSnapshot = inl k /\
             EnableAnalyzeSnapshot sv' = TiDBOptOn k) /\
  (exists m, GetGlobalSysVar TiDBAnalyzeSkipColumnTypes = inl m /\
             AnalyzeSkipColumnTypes sv' = ParseAnalyzeSkipColumnTypes m) /\
  (exists g, GetGlobalSysVar TiDBSkipMissingPartitionStats = inl g /\
             SkipMissingPartitionStats sv' = TiDBOptOn g) /\
  (exists w, GetGlobalSysVar TiDBMergePartitionStatsConcurrency = inl w /\
             ParseInt w = inl (AnalyzePartitionMergeConcurrency sv')).
Proof.
  destruct (Update_success sv sv' H)
    as (a & b & c & v & h & p & s & k & m & g & w & Ha & Hb & Hc & Hv & Hh & Hp & Hs
        & Hk & Hm & Hg & (ms & Hms & Hw) & ->).
  simpl. repeat split; eauto.
Qed.

(** X10: [UpdateSCtxVarsForStats] does not update the session atomically:
    when the read of [tidb_partition_prune_mode] fails after the earlier
    reads succeeded, the four variables set before it already hold their
    new values, the five after it keep their old ones, and the error is
    returned as it is. *)
Lemma UpdateSCtxVarsForStats_partial (sv : SessionVars)
    (a b v p : string) (c h : Z) (e : error)
    (Ha : GetGlobalSysVar TiDBEnableAsyncMergeGlobalStats = inl a)
    (Hb : GetGlobalSysVar TiDBAnalyzePartitionConcurrency = inl b)
    (Hc : ParseInt b = inl c)
    (Hv : GetGlobalSysVar TiDBAnalyzeVersion = inl v)
    (Hh : ParseInt v = inl h)
    (Hp : GetGlobalSysVar TiDBEnableHistoricalStats = inl p)
    (He : GetGlobalSysVar TiDBPartitionPruneMode = inr e) :
  Update sv =
    (mkSessionVars (TiDBOptOn a) c h (TiDBOptOn p)
       (PartitionPruneMode sv) (EnableAnalyzeSnapshot sv)
       (AnalyzeSkipColumnTypes sv) (SkipMissingPartitionStats sv)
       (AnalyzePartitionMergeConcurrency sv),
     inr e).
Proof.
  unfold UpdateSCtxVarsForStats, bindV, check, modify, retV.
  rewrite Ha, Hb, Hc, Hv, Hh, Hp, He. reflexivity.
Qed.

End WithGlobals.

Lemma UpdateSCtxVarsForStats_sets_all_witness :
  let g := fun x => match x with
                    | TiDBPartitionPruneMode => inl "dynamic"%string
                    | _ => inl "1"%string
                    end in
  let on := fun s => String.eqb s "1" in
  let pi := fun s => if String.eqb s "1" then inl 1 else inr (Err "invalid syntax") in
  let sk := fun s : string => [s] in
  let sv := mkSessionVars false 0 0 false "static" false [] false 0 in
  let sv' := mkSessionVars true 1 1 true "dynamic" true ["1"%string] true 1 in
  UpdateSCtxVarsForStats g on pi sk sv = (sv', inl tt) /\
  ((exists a, g TiDBEnableAsyncMergeGlobalStats = inl a /\
              EnableAsyncMergeGlobalStats sv' = on a) /\
   (exists b, g TiDBAnalyzePartitionConcurrency = inl b /\
              pi b = inl (AnalyzePartitionConcurrency sv')) /\
   (exists v, g TiDBAnalyzeVersion = inl v /\ pi v = inl (AnalyzeVersion sv')) /\
   (exists p, g TiDBEnableHistoricalStats = inl p /\ EnableHistoricalStats sv' = on p) /\
   g TiDBPartitionPruneMode = inl (PartitionPruneMode sv') /\
   (exists k, g TiDBEnableAnalyzeSnapshot = inl k /\ EnableAnalyzeSnapshot sv' = on k) /\
   (exists m, g TiDBAnalyzeSkipColumnTypes = inl m /\
              AnalyzeSkipColumnTypes sv' = sk m) /\
   (exists q, g TiDBSkipMissingPartitionStats = inl q /\
              SkipMissingPartitionStats sv' = on q) /\
   (exists w, g TiDBMergePartitionStatsConcurrency = inl w /\
              pi w = inl (AnalyzePartitionMergeConcurrency sv'))).
Proof.
  intros g on pi sk sv sv'.
  assert (H : UpdateSCtxVarsForStats g on pi sk sv = (sv', inl tt)) by reflexivity.
  split; [exact H|]. exact (UpdateSCtxVarsForStats_sets_all g on pi sk sv sv' H).
Defined.

Lemma UpdateSCtxVarsForStats_partial_witness :
  let g := fun x => match x with
                    | TiDBPartitionPruneMode => inr (Err "timeout")
                    | _ => inl "1"%string
                    end in
  let on := fun s => String.eqb s "1" in
  let pi := fun s => if String.eqb s "1" then inl 1 else inr (Err "invalid syntax") in
  let sk := fun s : string => [s] in
  let sv := mkSessionVars false 0 0 false "static" false [] false 0 in
  UpdateSCtxVarsForStats g on pi sk sv =
    (mkSessionVars true 1 1 true "static" false [] false 0, inr (Err "timeout")).
Proof.
  intros g on pi sk sv.
  apply (UpdateSCtxVarsForStats_partial g on pi sk sv "1" "1" "1" "1" 1 1 (Err "timeout"));
    reflexivity.
Defined.

End StatsVarsFacts.

Module TSOFacts.
Import TSO.

Lemma toInt64_id (x : Z) : -2 ^ 63 <= x < 2 ^ 63 -> toInt64 x = x.
Proof. intros H. unfold toInt64. rewrite Z.mod_small; lia. Qed.

Lemma quot_nonneg_div (d : Z) : 0 <= d -> Z.quot d Millisecond = d / Millisecond.
Proof. intros H. apply Z.quot_div_nonneg; unfold Millisecond; lia. Qed.

Lemma quot_neg_div (d : Z) : d <= 0 -> Z.quot d Millisecond = - ((- d) / Millisecond).
Proof.
  intros H. replace d with (- (- d)) at 1 by lia.
  rewrite Z.quot_opp_l by (unfold Millisecond; lia).
  rewrite quot_nonneg_div by lia. reflexivity.
Qed.

(** Within the range of [time.Duration] the shift and the addition do not
    overflow [int64]. *)
Lemma DurationToTS_eq (d : Z) :
  -2 ^ 63 <= d < 2 ^ 63 ->
  DurationToTS d = toUint64 (Z.quot d Millisecond * 2 ^ physicalShiftBits).
Proof.
  intros H. unfold DurationToTS, ComposeTS.
  rewrite Z.shiftl_mul_pow2 by (unfold physicalShiftBits; lia).
  assert (Hq : -2 ^ 63 <= Z.quot d Millisecond * 2 ^ physicalShiftBits < 2 ^ 63).
  { unfold physicalShiftBits.
    destruct (Z_le_gt_dec 0 d) as [Hd|Hd].
    - rewrite quot_nonneg_div by lia.
      pose proof (Z.div_mod d Millisecond ltac:(unfold Millisecond; lia)).
      pose proof (Z.mod_pos_bound d Millisecond ltac:(unfold Millisecond; lia)).
      unfold Millisecond in *. lia.
    - rewrite quot_neg_div by lia.
      pose proof (Z.div_mod (- d) Millisecond ltac:(unfold Millisecond; lia)).
      pose proof (Z.mod_pos_bound (- d) Millisecond ltac:(unfold Millisecond; lia)).
      unfold Millisecond in *. lia. }
  rewrite (toInt64_id (Z.quot d Millisecond * 2 ^ physicalShiftBits)) by exact Hq.
  rewrite Z.add_0_r, toInt64_id by exact Hq. reflexivity.
Qed.

(** X12: [DurationToTS] of a non-negative duration is a timestamp below
    [2^63] whose physical part (the bits above [physicalShiftBits]) is the
    duration in whole milliseconds, the rest truncated, and whose logical
    part is [0]. *)
Lemma DurationToTS_physical (d : Z) (H : 0 <= d < 2 ^ 63) :
  Z.shiftr (DurationToTS d) physicalShiftBits = Z.quot d Millisecond /\
  DurationToTS d mod 2 ^ physicalShiftBits = 0 /\
  0 <= DurationToTS d < 2 ^ 63.
Proof.
  rewrite DurationToTS_eq by lia.
  rewrite quot_nonneg_div by lia.
  pose proof (Z.div_mod d Millisecond ltac:(unfold Millisecond; lia)).
  pose proof (Z.mod_pos_bound d Millisecond ltac:(unfold Millisecond; lia)).
  unfold toUint64, physicalShiftBits, Millisecond in *.
  rewrite Z.mod_small by lia.
  rewrite Z.shiftr_div_pow2 by lia.
  rewrite Z.div_mul by lia. rewrite Z_mod_mult. lia.
Qed.

Lemma DurationToTS_physical_witness :
  let d := 1500 * Millisecond + 999 in
  0 <= d < 2 ^ 63 /\
  (Z.shiftr (DurationToTS d) physicalShiftBits = Z.quot d Millisecond /\
   DurationToTS d mod 2 ^ physicalShiftBits = 0 /\
   0 <= DurationToTS d < 2 ^ 63).
Proof.
  intros d. assert (H : 0 <= d < 2 ^ 63) by (unfold d, Millisecond; lia).
  split; [exact H | exact (DurationToTS_physical d H)].
Defined.

(** X13: [DurationToTS] is monotone on non-negative durations. *)
Lemma DurationToTS_monotone (d1 d2 : Z) (H : 0 <= d1 <= d2) (H2 : d2 < 2 ^ 63) :
  DurationToTS d1 <= DurationToTS d2.
Proof.
  rewrite !DurationToTS_eq by lia.
  rewrite !quot_nonneg_div by lia.
  assert (Hle : d1 / Millisecond <= d2 / Millisecond)
    by (apply Z.div_le_mono; unfold Millisecond; lia).
  pose proof (Z.div_mod d2 Millisecond ltac:(unfold Millisecond; lia)).
  pose proof (Z.mod_pos_bound d2 Millisecond ltac:(unfold Millisecond; lia)).
  pose proof (Z.div_pos d1 Millisecond ltac:(lia) ltac:(unfold Millisecond; lia)).
  unfold toUint64, physicalShiftBits, Millisecond in *.
  rewrite !Z.mod_small by lia. lia.
Qed.

Lemma DurationToTS_monotone_witness :
  (0 <= 2 * Millisecond <= 3 * Millisecond /\ 3 * Millisecond < 2 ^ 63) /\
  DurationToTS (2 * Millisecond) <= DurationToTS (3 * Millisecond).
Proof.
  assert (H : 0 <= 2 * Millisecond <= 3 * Millisecond) by (unfold Millisecond; lia).
  assert (H2 : 3 * Millisecond < 2 ^ 63) by (unfold Millisecond; lia).
  split; [split; assumption | exact (DurationToTS_monotone _ _ H H2)].
Defined.

(** X14: [DurationToTS] of a negative duration: above [-1ms] the division
    truncates to [0] and the timestamp is [0]; from [-1ms] down the
    negative physical part wraps around in the [uint64] conversion, to a
    timestamp of at least [2^63], above that of every non-negative
    duration. *)
Lemma DurationToTS_negative (d : Z) (H : -2 ^ 63 <= d < 0) :
  (- Millisecond < d -> DurationToTS d = 0) /\
  (d <= - Millisecond ->
   DurationToTS d = 2 ^ 64 + Z.quot d Millisecond * 2 ^ physicalShiftBits /\
   2 ^ 63 <= DurationToTS d).
Proof.
  rewrite DurationToTS_eq by lia.
  rewrite quot_neg_div by lia.
  pose proof (Z.div_mod (- d) Millisecond ltac:(unfold Millisecond; lia)).
  pose proof (Z.mod_pos_bound (- d) Millisecond ltac:(unfold Millisecond; lia)).
  unfold toUint64, physicalShiftBits, Millisecond in *.
  split.
  - intros Hd. assert (Hz : - d / 1000000 = 0) by lia. rewrite Hz. reflexivity.
  - intros Hd.
    rewrite <- (Z.mod_add _ 1 (2 ^ 64)) by lia.
    rewrite Z.mod_small by lia. lia.
Qed.

Lemma DurationToTS_negative_witness :
  (-2 ^ 63 <= - (1000 * Millisecond) < 0) /\
  ((- Millisecond < - (1000 * Millisecond) -> DurationToTS (- (1000 * Millisecond)) = 0) /\
   (- (1000 * Millisecond) <= - Millisecond ->
    DurationToTS (- (1000 * Millisecond)) =
      2 ^ 64 + Z.quot (- (1000 * Millisecond)) Millisecond * 2 ^ physicalShiftBits /\
    2 ^ 63 <= DurationToTS (- (1000 * Millisecond)))).
Proof.
  assert (H : -2 ^ 63 <= - (1000 * Millisecond) < 0) by (unfold Millisecond; lia).
  split; [exact H | exact (DurationToTS_negative _ H)].
Defined.

End TSOFacts.
